(** * Gated PixelCNN on MNIST (notebook 01): masked convolutions, gated
      block, sequential network, training loss and image completion.

    The notebook is written against Gluon (Apache MXNet).  The classes it
    defines are [VStack], [HStack] and [GatedLayer]; the cells below them
    build [net], the training loss and the image-completion loop.  The
    framework operators those lines call ([Convolution], [slice_like],
    [split], [concat], [zeros], [sigmoid], [tanh], the broadcasting
    arithmetic of [NDArray]) are embedded here with their documented
    index arithmetic, for the layout [NCHW] that the notebook uses.

    An [NDArray] is a shape together with an indexing function; an operator
    that MXNet rejects (a shape error) returns [None].  The element type is
    a parameter: the notebook runs on float32, and nothing below depends on
    how the elements add or multiply, only on which elements are read. *)

From Stdlib Require Import Arith PeanoNat Lia List Bool ZArith String.
Import ListNotations.

(** ** Errors: the option monad *)

Definition bind {A B : Type} (m : option A) (f : A -> option B) : option B :=
  match m with
  | Some a => f a
  | None => None
  end.

Notation "x <- m ;; k" := (bind m (fun x => k))
  (at level 61, m at next level, right associativity).
Notation "' pat <- m ;; k" := (bind m (fun x => match x with pat => k end))
  (at level 61, pat pattern, m at next level, right associativity).

(** Two results: both are errors, or both are values related by [r]. *)
Definition opt_rel {A B : Type} (r : A -> B -> Prop) (a : option A) (b : option B)
  : Prop :=
  match a, b with
  | Some y, Some y' => r y y'
  | None, None => True
  | _, _ => False
  end.

(** ** Elements *)

(** The scalar operations the notebook applies to tensor elements. *)
Class Scalar (R : Type) := {
  rzero : R;
  radd : R -> R -> R;
  rsub : R -> R -> R;
  rmul : R -> R -> R;
  rpow2 : R -> R;            (* [e ** 2] *)
  s_relu : R -> R;
  s_sigmoid : R -> R;
  s_tanh : R -> R;
  s_softrelu : R -> R;
  s_softsign : R -> R
}.

(** Gluon's activation names. *)
Inductive Activation := relu | sigmoid | tanh | softrelu | softsign.

(** ** Shapes *)

Record Shape := mkShape { dN : nat; dC : nat; dH : nat; dW : nat }.

(** Every extent is positive: MXNet 1.x has no zero-size arrays. *)
Definition positive_shape (s : Shape) : Prop :=
  0 < dN s /\ 0 < dC s /\ 0 < dH s /\ 0 < dW s.

Definition in_shape (s : Shape) (n c i j : nat) : Prop :=
  n < dN s /\ c < dC s /\ i < dH s /\ j < dW s.

(** Python's [range(a, b)]. *)
Definition range (a b : nat) : list nat := seq a (b - a).

(** A [for] loop over a list of indices whose body may raise. *)
Fixpoint for_each {I S : Type} (l : list I) (body : I -> S -> option S)
  (s : S) : option S :=
  match l with
  | [] => Some s
  | k :: l' => s' <- body k s ;; for_each l' body s'
  end.

Section Network.

Context {R : Type} `{Scalar R}.

Definition apply_activation (a : Activation) (v : R) : R :=
  match a with
  | relu => s_relu v
  | sigmoid => s_sigmoid v
  | tanh => s_tanh v
  | softrelu => s_softrelu v
  | softsign => s_softsign v
  end.

(** ** Arrays *)

(** A four-dimensional array in layout [NCHW].  [data] is read only at
    indices inside [shape]; what it holds elsewhere is never observed. *)
Record NDArray := mkND {
  shape : Shape;
  data : nat -> nat -> nat -> nat -> R
}.

(** [rsum n f] adds [f 0], ..., [f (n-1)] from left to right. *)
Fixpoint rsum (n : nat) (f : nat -> R) : R :=
  match n with
  | 0 => rzero
  | S k => radd (rsum k f) (f k)
  end.

(** *** Operators of the framework *)

(** The input seen through its zero padding: [(r, q)] are coordinates in
    the padded image, whose first [ph] rows and [pw] columns are zeros. *)
Definition pad_read (x : NDArray) (ph pw : nat) (n c r q : nat) : R :=
  if (ph <=? r) && (r - ph <? dH (shape x)) &&
     (pw <=? q) && (q - pw <? dW (shape x))
  then data x n c (r - ph) (q - pw)
  else rzero.

(** One spatial extent of a convolution's output. *)
Definition conv_out_dim (d p k dil s : nat) : option nat :=
  let dk := dil * (k - 1) + 1 in
  if (0 <? k) && (0 <? dil) && (0 <? s) && (dk <=? d + 2 * p)
  then Some ((d + 2 * p - dk) / s + 1)
  else None.

(** A [gluon.nn.Conv2D] block: its constructor arguments (layout [NCHW])
    and the current values of its two parameters.  [in_channels = 0] defers
    the input channel count to the first call. *)
Record Conv2D := mkConv2D {
  channels : nat;
  kernel_size : nat * nat;
  strides : nat * nat;
  padding : nat * nat;
  dilation : nat * nat;
  groups : nat;
  activation : option Activation;
  use_bias : bool;
  in_channels : nat;
  weight : nat -> nat -> nat -> nat -> R;
  bias : nat -> R
}.

Definition conv_shape (c : Conv2D) (s : Shape) : option Shape :=
  if (0 <? groups c) && (dC s mod groups c =? 0) &&
     (channels c mod groups c =? 0) &&
     ((in_channels c =? 0) || (in_channels c =? dC s))
  then
    oh <- conv_out_dim (dH s) (fst (padding c)) (fst (kernel_size c))
            (fst (dilation c)) (fst (strides c)) ;;
    ow <- conv_out_dim (dW s) (snd (padding c)) (snd (kernel_size c))
            (snd (dilation c)) (snd (strides c)) ;;
    Some (mkShape (dN s) (channels c) oh ow)
  else None.

Definition conv_data (c : Conv2D) (x : NDArray) (n o i j : nat) : R :=
  let cg := dC (shape x) / groups c in
  let g := o / (channels c / groups c) in
  let acc :=
    rsum cg (fun ci =>
      rsum (fst (kernel_size c)) (fun a =>
        rsum (snd (kernel_size c)) (fun b =>
          rmul (weight c o ci a b)
               (pad_read x (fst (padding c)) (snd (padding c)) n (g * cg + ci)
                  (i * fst (strides c) + a * fst (dilation c))
                  (j * snd (strides c) + b * snd (dilation c)))))) in
  let y := if use_bias c then radd acc (bias c o) else acc in
  match activation c with
  | Some a => apply_activation a y
  | None => y
  end.

(** [Conv2D.hybrid_forward]: the [Convolution] operator followed by the
    block's activation. *)
Definition Conv2D_hybrid_forward (self : Conv2D) (x : NDArray) : option NDArray :=
  s <- conv_shape self (shape x) ;;
  Some (mkND s (conv_data self x)).

(** [F.slice_like(act, x, axes=[2,3])]. *)
Definition F_slice_like (act x : NDArray) : option NDArray :=
  if (dH (shape x) <=? dH (shape act)) && (dW (shape x) <=? dW (shape act))
  then Some (mkND (mkShape (dN (shape act)) (dC (shape act))
                           (dH (shape x)) (dW (shape x)))
                  (data act))
  else None.

(** [F.split(x, axis=1, num_outputs=2)]. *)
Definition F_split (x : NDArray) : option (NDArray * NDArray) :=
  let s := shape x in
  let half := dC s / 2 in
  if dC s mod 2 =? 0
  then Some (mkND (mkShape (dN s) half (dH s) (dW s)) (data x),
             mkND (mkShape (dN s) half (dH s) (dW s))
                  (fun n c i j => data x n (half + c) i j))
  else None.

(** [F.concat(a, b, dim=1)]. *)
Definition F_concat (a b : NDArray) : option NDArray :=
  let s := shape a in
  let t := shape b in
  if (dN s =? dN t) && (dH s =? dH t) && (dW s =? dW t)
  then Some (mkND (mkShape (dN s) (dC s + dC t) (dH s) (dW s))
                  (fun n c i j =>
                     if c <? dC s then data a n c i j
                     else data b n (c - dC s) i j))
  else None.

(** [F.zeros(shape)]. *)
Definition F_zeros (s : Shape) : NDArray := mkND s (fun _ _ _ _ => rzero).

Definition map_nd (f : R -> R) (x : NDArray) : NDArray :=
  mkND (shape x) (fun n c i j => f (data x n c i j)).

Definition F_sigmoid : NDArray -> NDArray := map_nd s_sigmoid.
Definition F_tanh : NDArray -> NDArray := map_nd s_tanh.

(** The arithmetic operators of [NDArray] broadcast: two extents are
    compatible when they are equal or one of them is 1. *)
Definition bdim (a b : nat) : option nat :=
  if a =? b then Some a
  else if a =? 1 then Some b
  else if b =? 1 then Some a
  else None.

Definition bidx (d k : nat) : nat := if d =? 1 then 0 else k.

Definition bshape (s t : Shape) : option Shape :=
  n <- bdim (dN s) (dN t) ;;
  c <- bdim (dC s) (dC t) ;;
  h <- bdim (dH s) (dH t) ;;
  w <- bdim (dW s) (dW t) ;;
  Some (mkShape n c h w).

Definition broadcast (f : R -> R -> R) (a b : NDArray) : option NDArray :=
  let s := shape a in
  let t := shape b in
  u <- bshape s t ;;
  Some (mkND u (fun n c i j =>
          f (data a (bidx (dN s) n) (bidx (dC s) c) (bidx (dH s) i) (bidx (dW s) j))
            (data b (bidx (dN t) n) (bidx (dC t) c) (bidx (dH t) i) (bidx (dW t) j)))).

Definition nd_add : NDArray -> NDArray -> option NDArray := broadcast radd.
Definition nd_sub : NDArray -> NDArray -> option NDArray := broadcast rsub.
Definition nd_mul : NDArray -> NDArray -> option NDArray := broadcast rmul.

(** ** The notebook's classes *)

(** ['A' is kernel_type]: one-character strings are shared objects in
    CPython, so the identity test decides equality with ["A"]. *)
Definition is_A (kernel_type : string) : bool := String.eqb "A" kernel_type.

(** [VStack.__init__].  The initializer arguments are replaced by the
    parameter values themselves.  For a kernel of height 0 Python computes
    the padding -1; the subtraction below gives 0, and the convolution
    rejects the kernel in both cases. *)
Definition VStack_init (channels : nat) (kernel_size strides dilation : nat * nat)
  (groups : nat) (activation : option Activation) (use_bias : bool)
  (weight : nat -> nat -> nat -> nat -> R) (bias : nat -> R)
  (in_channels : nat) (kernel_type : string) : Conv2D :=
  mkConv2D channels kernel_size strides
    (if is_A kernel_type then fst kernel_size else fst kernel_size - 1,
     snd kernel_size / 2)
    dilation groups activation use_bias in_channels weight bias.

(** [VStack.hybrid_forward]. *)
Definition VStack_hybrid_forward (self : Conv2D) (x : NDArray) : option NDArray :=
  act <- Conv2D_hybrid_forward self x ;;
  F_slice_like act x.

(** [HStack.__init__]. *)
Definition HStack_init (channels : nat) (kernel_len : nat) (strides dilation : nat * nat)
  (groups : nat) (activation : option Activation) (use_bias : bool)
  (weight : nat -> nat -> nat -> nat -> R) (bias : nat -> R)
  (in_channels : nat) (kernel_type : string) : Conv2D :=
  mkConv2D channels (1, kernel_len) strides
    (0, if is_A kernel_type then kernel_len else kernel_len - 1)
    dilation groups activation use_bias in_channels weight bias.

(** [HStack.hybrid_forward]. *)
Definition HStack_hybrid_forward (self : Conv2D) (x : NDArray) : option NDArray :=
  act <- Conv2D_hybrid_forward self x ;;
  F_slice_like act x.

(** [GatedLayer]: the attributes set by [__init__]. *)
Record GatedLayer := mkGatedLayer {
  gl_channels : nat;
  gl_residual : bool;
  gl_vstack : Conv2D;
  gl_hstack : Conv2D;
  gl_vtoh : Conv2D;
  gl_htoh : Conv2D
}.

(** The weight and bias of one convolution. *)
Record ConvParams := mkConvParams {
  p_weight : nat -> nat -> nat -> nat -> R;
  p_bias : nat -> R
}.

(** The parameters of the four convolutions of a [GatedLayer]. *)
Record GatedParams := mkGatedParams {
  p_vstack : ConvParams;
  p_hstack : ConvParams;
  p_vtoh : ConvParams;
  p_htoh : ConvParams
}.

(** [GatedLayer.__init__]. *)
Definition GatedLayer_init (channels : nat) (kernel_size strides dilation : nat * nat)
  (groups : nat) (use_bias : bool) (p : GatedParams)
  (in_channels : nat) (kernel_type : string) (residual : bool) : GatedLayer :=
  mkGatedLayer channels residual
    (VStack_init (channels * 2) kernel_size strides dilation groups None use_bias
       (p_weight (p_vstack p)) (p_bias (p_vstack p)) in_channels kernel_type)
    (HStack_init (channels * 2) (snd kernel_size) strides dilation groups None use_bias
       (p_weight (p_hstack p)) (p_bias (p_hstack p)) in_channels kernel_type)
    (mkConv2D (channels * 2) (1, 1) strides (0, 0) (1, 1) groups None use_bias
       (channels * 2) (p_weight (p_vtoh p)) (p_bias (p_vtoh p)))
    (mkConv2D channels (1, 1) strides (0, 0) (1, 1) groups None use_bias
       channels (p_weight (p_htoh p)) (p_bias (p_htoh p))).

(** The residual connection of the horizontal stream: the three branches
    that end [GatedLayer.hybrid_forward]. *)
Definition residual_connection (self : GatedLayer) (hx hstack_preres : NDArray)
  : option NDArray :=
  if negb (gl_residual self) then Some hstack_preres
  else if dC (shape hx) <? gl_channels self then
    let s := shape hx in
    let zpad_shape := mkShape (dN s) (gl_channels self - dC s) (dH s) (dW s) in
    padded <- F_concat hx (F_zeros zpad_shape) ;;
    nd_add hstack_preres padded
  else nd_add hstack_preres hx.

(** [GatedLayer.hybrid_forward]. *)
Definition GatedLayer_hybrid_forward (self : GatedLayer) (x : NDArray)
  : option NDArray :=
  '(vx, hx) <- F_split x ;;
  vstack <- VStack_hybrid_forward (gl_vstack self) vx ;;
  hs <- HStack_hybrid_forward (gl_hstack self) hx ;;
  vh <- Conv2D_hybrid_forward (gl_vtoh self) vstack ;;
  hstack <- nd_add hs vh ;;
  '(vstack_presig, vstack_pretanh) <- F_split vstack ;;
  '(hstack_presig, hstack_pretanh) <- F_split hstack ;;
  vstack_out <- nd_mul (F_sigmoid vstack_presig) (F_tanh vstack_pretanh) ;;
  gated <- nd_mul (F_sigmoid hstack_presig) (F_tanh hstack_pretanh) ;;
  hstack_preres <- Conv2D_hybrid_forward (gl_htoh self) gated ;;
  hstack_out <- residual_connection self hx hstack_preres ;;
  F_concat vstack_out hstack_out.

(** ** The network *)

Inductive Block :=
| ConvBlock (c : Conv2D)
| GatedBlock (g : GatedLayer).

Definition Block_forward (b : Block) (x : NDArray) : option NDArray :=
  match b with
  | ConvBlock c => Conv2D_hybrid_forward c x
  | GatedBlock g => GatedLayer_hybrid_forward g x
  end.

(** [gluon.nn.Sequential]: the blocks are applied in the order they were
    added. *)
Fixpoint Sequential_forward (blocks : list Block) (x : NDArray) : option NDArray :=
  match blocks with
  | [] => Some x
  | b :: rest => y <- Block_forward b x ;; Sequential_forward rest y
  end.

(** [gluon.nn.Conv2D(channels, kernel_size, activation=...)] with every
    other argument at its default. *)
Definition Conv2D_default (channels : nat) (kernel_size : nat * nat)
  (activation : option Activation) (p : ConvParams) : Conv2D :=
  mkConv2D channels kernel_size (1, 1) (0, 0) (1, 1) 1 activation true 0
    (p_weight p) (p_bias p).

(** [GatedLayer(channels, kernel_size, kernel_type=..., residual=...)] with
    every other argument at its default. *)
Definition GatedLayer_default (channels : nat) (kernel_size : nat * nat)
  (kernel_type : string) (residual : bool) (p : GatedParams) : GatedLayer :=
  GatedLayer_init channels kernel_size (1, 1) (1, 1) 1 true p 0 kernel_type residual.

(** The trained parameters of [net]. *)
Record NetParams := mkNetParams {
  p_first : ConvParams;
  p_gated : nat -> GatedParams;
  p_last : ConvParams
}.

(** The blocks added to [net]. *)
Definition net_blocks (p : NetParams) : list Block :=
  [ ConvBlock (Conv2D_default 8 (1, 1) None (p_first p));
    GatedBlock (GatedLayer_default 16 (5, 5) "A" false (p_gated p 0));
    GatedBlock (GatedLayer_default 16 (5, 5) "B" false (p_gated p 1));
    GatedBlock (GatedLayer_default 16 (5, 5) "B" false (p_gated p 2));
    GatedBlock (GatedLayer_default 16 (5, 5) "B" false (p_gated p 3));
    GatedBlock (GatedLayer_default 16 (5, 5) "B" false (p_gated p 4));
    GatedBlock (GatedLayer_default 16 (5, 5) "B" false (p_gated p 5));
    ConvBlock (Conv2D_default 1 (1, 1) (Some relu) (p_last p)) ].

Definition net (p : NetParams) (x : NDArray) : option NDArray :=
  Sequential_forward (net_blocks p) x.

(** ** Training loss *)

(** A one-dimensional array. *)
Record Vector := mkVec { vlen : nat; vdata : nat -> R }.

(** [mx.nd.sum(a, axis=[1,2,3])]. *)
Definition sum_axes_123 (a : NDArray) : Vector :=
  mkVec (dN (shape a))
    (fun n => rsum (dC (shape a)) (fun c =>
                rsum (dH (shape a)) (fun i =>
                  rsum (dW (shape a)) (fun j => data a n c i j)))).

(** [loss = mx.nd.sum((net(x) - x)**2, axis=[1,2,3])]. *)
Definition loss (net : NDArray -> option NDArray) (x : NDArray) : option Vector :=
  y <- net x ;;
  d <- nd_sub y x ;;
  Some (sum_axes_123 (map_nd rpow2 d)).

(** ** Image completion *)

(** [a.asnumpy()[:, c, i, j]]. *)
Definition getitem (a : NDArray) (c i j : nat) : option Vector :=
  if (c <? dC (shape a)) && (i <? dH (shape a)) && (j <? dW (shape a))
  then Some (mkVec (dN (shape a)) (fun n => data a n c i j))
  else None.

(** [a[:, c, i, j] = v]: the assigned region has one element per batch
    entry, and [v] must have exactly that many. *)
Definition setitem (a : NDArray) (c i j : nat) (v : Vector) : option NDArray :=
  if (c <? dC (shape a)) && (i <? dH (shape a)) && (j <? dW (shape a)) &&
     (vlen v =? dN (shape a))
  then Some (mkND (shape a)
               (fun n' c' i' j' =>
                  if (c' =? c) && (i' =? i) && (j' =? j) then vdata v n'
                  else data a n' c' i' j'))
  else None.

(** The body of the inner loop:
    [reconst[:,0,i,j] = net(reconst).asnumpy()[:,0,i,j]]. *)
Definition completion_step (net : NDArray -> option NDArray) (i j : nat)
  (reconst : NDArray) : option NDArray :=
  out <- net reconst ;;
  v <- getitem out 0 i j ;;
  setitem reconst 0 i j v.

(** The completion cell.  [x] is the batch at which the preceding [for]
    breaks; [reconst] starts as a copy of it ([mx.nd.array] copies), so [x]
    itself is never written. *)
Definition completion (net : NDArray -> option NDArray) (x : NDArray)
  : option NDArray :=
  let reconst := x in
  for_each (range 14 28) (fun i r =>
    for_each (range 0 28) (fun j r' => completion_step net i j r') r) reconst.

End Network.

Arguments NDArray : clear implicits.
Arguments Conv2D : clear implicits.
Arguments GatedLayer : clear implicits.
Arguments ConvParams : clear implicits.
Arguments GatedParams : clear implicits.
Arguments NetParams : clear implicits.
Arguments Block : clear implicits.
Arguments Vector : clear implicits.

(** ** Relations between two runs *)

Section Relations.

Context {R : Type} `{Scalar R}.

(** Two arrays of one shape that hold the same element wherever the
    predicate [P] on (channel, row, column) holds. *)
Definition agree_on (P : nat -> nat -> nat -> Prop) (a b : NDArray R) : Prop :=
  shape a = shape b /\
  forall n c i j, in_shape (shape a) n c i j -> P c i j ->
                  data a n c i j = data b n c i j.

(** Equality of arrays, element by element. *)
Definition nd_eq : NDArray R -> NDArray R -> Prop := agree_on (fun _ _ _ => True).

(** The two halves of a split, pairwise related. *)
Definition pair_rel (r1 r2 : NDArray R -> NDArray R -> Prop)
  (p q : NDArray R * NDArray R) : Prop :=
  r1 (fst p) (fst q) /\ r2 (snd p) (snd q).

(** What a convolution reads for its output at (channel [o], row [i],
    column [j]): every tap that falls inside the input satisfies [P]. *)
Definition conv_reads (c : Conv2D R) (s : Shape) (P : nat -> nat -> nat -> Prop)
  (o i j : nat) : Prop :=
  forall ci a b,
    ci < dC s / groups c ->
    a < fst (kernel_size c) -> b < snd (kernel_size c) ->
    let r := i * fst (strides c) + a * fst (dilation c) in
    let q := j * snd (strides c) + b * snd (dilation c) in
    fst (padding c) <= r -> r - fst (padding c) < dH s ->
    snd (padding c) <= q -> q - snd (padding c) < dW s ->
    P (o / (channels c / groups c) * (dC s / groups c) + ci)
      (r - fst (padding c)) (q - snd (padding c)).

(** The convolution accepts an input of [Cin] channels. *)
Definition conv_ok (c : Conv2D R) (Cin : nat) : Prop :=
  0 < groups c /\ Cin mod groups c = 0 /\ channels c mod groups c = 0 /\
  (in_channels c = 0 \/ in_channels c = Cin).

(** Unit strides and dilation, and enough padding for the output to be at
    least as large as the input. *)
Definition keeps_size (c : Conv2D R) : Prop :=
  strides c = (1, 1) /\ dilation c = (1, 1) /\
  0 < fst (kernel_size c) /\ 0 < snd (kernel_size c) /\
  fst (kernel_size c) <= 2 * fst (padding c) + 1 /\
  snd (kernel_size c) <= 2 * snd (padding c) + 1.

(** A 1x1 convolution with unit strides and no padding. *)
Definition pointwise (c : Conv2D R) : Prop :=
  kernel_size c = (1, 1) /\ strides c = (1, 1) /\
  padding c = (0, 0) /\ dilation c = (1, 1).

(** With unit strides and dilation, every position that the kernel of [c]
    placed at [(i, j)] covers inside the padded input satisfies [P]. *)
Definition taps (c : Conv2D R) (P : nat -> nat -> Prop) (i j : nat) : Prop :=
  forall a b,
    a < fst (kernel_size c) -> b < snd (kernel_size c) ->
    fst (padding c) <= i + a -> snd (padding c) <= j + b ->
    P (i + a - fst (padding c)) (j + b - snd (padding c)).

(** A predicate on positions, for every channel. *)
Definition lift (P : nat -> nat -> Prop) (c i j : nat) : Prop := P i j.

(** The predicate of a broadcast operand. *)
Definition bpred (s : Shape) (P : nat -> nat -> nat -> Prop) (c i j : nat) : Prop :=
  P (bidx (dC s) c) (bidx (dH s) i) (bidx (dW s) j).

(** A predicate on the channels of a concatenation. *)
Definition cat_pred (k : nat) (P Q : nat -> nat -> nat -> Prop) (c i j : nat) : Prop :=
  if c <? k then P c i j else Q (c - k) i j.



(** The residual input padded with zero channels up to [k] channels. *)
Definition zero_pad_channels (hx : NDArray R) (k : nat) : NDArray R :=
  let s := shape hx in
  mkND (mkShape (dN s) k (dH s) (dW s))
       (fun n c i j => if c <? dC s then data hx n c i j else rzero).

(** The residual connection as the specification words it: padded
    whenever the channel counts differ. *)
Definition residual_as_claimed (self : GatedLayer R) (hx hstack_preres : NDArray R)
  : option (NDArray R) :=
  if negb (gl_residual self) then Some hstack_preres
  else if dC (shape hx) =? gl_channels self then nd_add hstack_preres hx
  else nd_add hstack_preres (zero_pad_channels hx (gl_channels self)).


(** Position [(r, q)] comes strictly before [(i, j)] in row-major order. *)
Definition before (i j r q : nat) : Prop := r < i \/ (r = i /\ q < j).

(** Position [(r, q)] is [(i, j)] or comes before it. *)
Definition upto (i j r q : nat) : Prop := r < i \/ (r = i /\ q <= j).

End Relations.

(** ** Regions, batches and the rest of the completion cell *)

Section Further.

Context {R : Type} `{Scalar R}.

(** The rectangle of input positions [(r, q)] under the kernel of [c]
    placed for the output at [(i, j)], with unit strides and dilation. *)
Definition in_window (c : Conv2D R) (i j r q : nat) : Prop :=
  i <= r + fst (padding c) /\ r + fst (padding c) < i + fst (kernel_size c) /\
  j <= q + snd (padding c) /\ q + snd (padding c) < j + snd (kernel_size c).

(** What the vertical and the horizontal stream of [net] read, [k] type-B
    blocks before the last one, for the output at [(i, j)]. *)
Definition v_field (k i j r q : nat) : Prop :=
  i <= r + 4 * k /\ r <= i /\ j <= q + 6 * k /\ q <= j + 2 * k.

Definition h_field (k i j r q : nat) : Prop :=
  r = i /\ j <= q + 4 * k /\ q <= j.

(** A region of the input that holds everything [net] reads for its output
    at [(i, j)]: 25 rows above, and 25 pixels to the left in row [i]. *)
Definition net_field (i j r q : nat) : Prop :=
  (i <= r + 25 /\ r < i /\ j <= q + 32 /\ q <= j + 12) \/
  (r = i /\ j <= q + 25 /\ q < j).

(** Image [n] of a batch, as a batch of one image (the slice [x[n:n+1]]).
    The notebook never takes this slice; it serves to state what the code
    does to one image of a batch. *)
Definition take_image (n : nat) (x : NDArray R) : NDArray R :=
  mkND (mkShape 1 (dC (shape x)) (dH (shape x)) (dW (shape x)))
       (fun _ c i j => data x n c i j).

(** [y] is image [n] of the batch [yb] of [N] images. *)
Definition image_of (N n : nat) (y yb : NDArray R) : Prop :=
  dN (shape yb) = N /\ nd_eq y (take_image n yb).

(** The loop that opens the completion cell:
    [for n, (x, _) in enumerate(test_loader): x = ...; reconst = ...;
     if n==1: break].
    [cur] is the batch bound to [reconst] so far ([None] before the first
    pass). *)
Fixpoint select_loop {A B : Type} (n : nat) (test_loader : list (A * B))
  (cur : option A) : option A :=
  match test_loader with
  | [] => cur
  | (x, _) :: rest =>
      if n =? 1 then Some x else select_loop (S n) rest (Some x)
  end.

(** The whole completion cell: the selection loop, then the completion of
    the selected batch.  With an empty loader [reconst] is unbound and the
    cell raises. *)
Definition completion_cell {B : Type} (net : NDArray R -> option (NDArray R))
  (test_loader : list (NDArray R * B)) : option (NDArray R) :=
  reconst <- select_loop 0 test_loader None ;;
  completion net reconst.

End Further.

(** ** Small integer inputs *)

(** Integers as elements, to run the index arithmetic on small arrays; the
    nonlinearities are stand-ins. *)
#[export] Instance Z_Scalar : Scalar Z := {|
  rzero := 0%Z;
  radd := Z.add;
  rsub := Z.sub;
  rmul := Z.mul;
  rpow2 := fun z => (z * z)%Z;
  s_relu := Z.max 0;
  s_sigmoid := fun z => z;
  s_tanh := fun z => z;
  s_softrelu := Z.max 0;
  s_softsign := Z.sgn
|}.

Definition ones_weight : nat -> nat -> nat -> nat -> Z := fun _ _ _ _ => 1%Z.
Definition zero_bias : nat -> Z := fun _ => 0%Z.
Definition ones_params : ConvParams Z := mkConvParams ones_weight zero_bias.
Definition ones_gated : GatedParams Z :=
  mkGatedParams ones_params ones_params ones_params ones_params.
Definition ones_net : NetParams Z :=
  mkNetParams ones_params (fun _ => ones_gated) ones_params.

(** The four masked convolutions of [net], with every weight 1. *)
Definition vstack_A_ones : Conv2D Z :=
  VStack_init 1 (5, 5) (1, 1) (1, 1) 1 None true ones_weight zero_bias 0 "A".
Definition vstack_B_ones : Conv2D Z :=
  VStack_init 1 (5, 5) (1, 1) (1, 1) 1 None true ones_weight zero_bias 0 "B".
Definition hstack_A_ones : Conv2D Z :=
  HStack_init 1 5 (1, 1) (1, 1) 1 None true ones_weight zero_bias 0 "A".
Definition hstack_B_ones : Conv2D Z :=
  HStack_init 1 5 (1, 1) (1, 1) 1 None true ones_weight zero_bias 0 "B".

(** The row [1 2 3] and the column [1 2 3]. *)
Definition row3 : NDArray Z := mkND (mkShape 1 1 1 3) (fun _ _ _ j => Z.of_nat (j + 1)).
Definition col3 : NDArray Z := mkND (mkShape 1 1 3 1) (fun _ _ i _ => Z.of_nat (i + 1)).

(** A 5x5 vertical stack of type B, as in layers 2 to 6 of [net]. *)
Definition vstack_B : Conv2D Z :=
  VStack_init 1 (5, 5) (1, 1) (1, 1) 1 None true ones_weight zero_bias 0 "B".

(** A 5x5 vertical stack of type A with strides 2. *)
Definition vstack_strided : Conv2D Z :=
  VStack_init 1 (5, 5) (2, 2) (1, 1) 1 None true ones_weight zero_bias 0 "A".

(** One blank MNIST-sized image. *)
Definition img28 : NDArray Z := mkND (mkShape 1 1 28 28) (fun _ _ _ _ => 0%Z).

(** An MNIST-sized image that is blank above row 14 and white below. *)
Definition img28_lower : NDArray Z :=
  mkND (mkShape 1 1 28 28) (fun _ _ i _ => if i <? 14 then 0%Z else 1%Z).

(** Two 2x2 images that differ only in their last pixel. *)
Definition img_a : NDArray Z := mkND (mkShape 1 1 2 2) (fun _ _ _ _ => 0%Z).
Definition img_b : NDArray Z :=
  mkND (mkShape 1 1 2 2) (fun _ _ i j => if (i =? 1) && (j =? 1) then 1%Z else 0%Z).

(** A gated layer of 2 channels with the residual connection, and an input
    of 6 channels: each stream receives 3. *)
Definition gated_res : GatedLayer Z :=
  GatedLayer_init 2 (5, 5) (1, 1) (1, 1) 1 true ones_gated 0 "A" true.
Definition img6 : NDArray Z := mkND (mkShape 1 6 1 1) (fun _ _ _ _ => 1%Z).
Definition hx3 : NDArray Z := mkND (mkShape 1 3 1 1) (fun _ _ _ _ => 1%Z).
Definition pre2 : NDArray Z := mkND (mkShape 1 2 1 1) (fun _ _ _ _ => 1%Z).

(** Two 4-channel 2x2 inputs that agree on channels 0 and 1 only. *)
Definition img_ab4 : NDArray Z :=
  mkND (mkShape 1 4 2 2) (fun _ c i j => Z.of_nat (c + i + j)).
Definition img_ab4' : NDArray Z :=
  mkND (mkShape 1 4 2 2)
       (fun _ c i j => if c <? 2 then Z.of_nat (c + i + j) else 7%Z).

(** [img_ab4] with its last pixel changed in every channel. *)
Definition img_ab4_last : NDArray Z :=
  mkND (mkShape 1 4 2 2)
       (fun _ c i j => if (i =? 1) && (j =? 1) then 9%Z else Z.of_nat (c + i + j)).

(** A batch of two 2x2 images. *)
Definition batch2 : NDArray Z :=
  mkND (mkShape 2 1 2 2) (fun n _ i j => Z.of_nat (n + i + 2 * j)).

(** A batch of two MNIST-sized images. *)
Definition batch28 : NDArray Z :=
  mkND (mkShape 2 1 28 28) (fun n _ i j => Z.of_nat (n + i + j)).

(** Two 1x2 images that differ only in the pixel to the right of (0,0). *)
Definition img_zero : NDArray Z := mkND (mkShape 1 1 1 2) (fun _ _ _ _ => 0%Z).
Definition img_right : NDArray Z :=
  mkND (mkShape 1 1 1 2) (fun _ _ _ j => if j =? 1 then 1%Z else 0%Z).

(** An MNIST-sized image whose top row is white. *)
Definition img28_top : NDArray Z :=
  mkND (mkShape 1 1 28 28) (fun _ _ i _ => if i =? 0 then 1%Z else 0%Z).

(** * Proofs *)

Section Proofs.

Context {R : Type} `{Scalar R}.

(** ** Elementary facts *)

Lemma rsum_ext (n : nat) (f g : nat -> R) :
  (forall k, k < n -> f k = g k) -> rsum n f = rsum n g.
Proof.
  induction n as [|n IH]; intros Hfg; simpl.
  - reflexivity.
  - rewrite IH by (intros; apply Hfg; lia).
    rewrite Hfg by lia. reflexivity.
Qed.

Lemma bind_some {A B : Type} (m : option A) (f : A -> option B) (b : B) :
  bind m f = Some b -> exists a, m = Some a /\ f a = Some b.
Proof.
  destruct m as [a|]; simpl; intros E; [eauto | discriminate].
Qed.

Lemma agree_on_shape P (a b : NDArray R) : agree_on P a b -> shape a = shape b.
Proof. intros [E _]; exact E. Qed.

Lemma agree_on_weaken (P Q : nat -> nat -> nat -> Prop) (a b : NDArray R) :
  agree_on P a b ->
  (forall c i j, c < dC (shape a) -> i < dH (shape a) -> j < dW (shape a) ->
                 Q c i j -> P c i j) ->
  agree_on Q a b.
Proof.
  intros [E HP] HQ. split; [exact E|].
  intros n c i j Hin Hq. apply HP; [exact Hin|].
  destruct Hin as (_ & ? & ? & ?). apply HQ; assumption.
Qed.

Lemma agree_on_sym P (a b : NDArray R) : agree_on P a b -> agree_on P b a.
Proof.
  intros [E HP]. split; [congruence|].
  intros n c i j Hin Hp. symmetry. apply HP; [rewrite E; exact Hin | exact Hp].
Qed.

Lemma agree_on_refl P (a : NDArray R) : agree_on P a a.
Proof. split; [reflexivity | intros; reflexivity]. Qed.

(** ** Convolution *)

Lemma group_channel_bound (Cin Cout g o ci : nat) :
  0 < g -> Cin mod g = 0 -> Cout mod g = 0 -> o < Cout -> ci < Cin / g ->
  o / (Cout / g) * (Cin / g) + ci < Cin.
Proof.
  intros Hg Hin Hout Ho Hci.
  apply Nat.Div0.div_exact in Hin. apply Nat.Div0.div_exact in Hout.
  assert (Hq : o / (Cout / g) < g).
  { apply Nat.Div0.div_lt_upper_bound. rewrite Nat.mul_comm. lia. }
  set (cg := Cin / g) in *. set (q := o / (Cout / g)) in *.
  clearbody cg q. nia.
Qed.

Lemma conv_shape_inv (c : Conv2D R) (s t : Shape) :
  conv_shape c s = Some t ->
  0 < groups c /\ dC s mod groups c = 0 /\ channels c mod groups c = 0 /\
  dN t = dN s /\ dC t = channels c /\
  conv_out_dim (dH s) (fst (padding c)) (fst (kernel_size c))
    (fst (dilation c)) (fst (strides c)) = Some (dH t) /\
  conv_out_dim (dW s) (snd (padding c)) (snd (kernel_size c))
    (snd (dilation c)) (snd (strides c)) = Some (dW t).
Proof.
  unfold conv_shape. intros E.
  destruct (_ && _) eqn:Hc in E; [|discriminate].
  apply andb_prop in Hc as [Hc _]. apply andb_prop in Hc as [Hc H3].
  apply andb_prop in Hc as [H1 H2].
  apply Nat.ltb_lt in H1. apply Nat.eqb_eq in H2. apply Nat.eqb_eq in H3.
  apply bind_some in E as (oh & Eh & E). apply bind_some in E as (ow & Ew & E).
  inversion E; subst t; simpl. auto 10.
Qed.

Lemma pad_read_agree P (x x' : NDArray R) ph pw n c r q :
  agree_on P x x' -> n < dN (shape x) -> c < dC (shape x) ->
  (ph <= r -> r - ph < dH (shape x) -> pw <= q -> q - pw < dW (shape x) ->
   P c (r - ph) (q - pw)) ->
  pad_read x ph pw n c r q = pad_read x' ph pw n c r q.
Proof.
  intros [E HP] Hn Hc Hin. unfold pad_read. rewrite <- E.
  destruct (_ && _) eqn:Hb; [|reflexivity].
  apply andb_prop in Hb as [Hb H4]. apply andb_prop in Hb as [Hb H3].
  apply andb_prop in Hb as [H1 H2].
  apply Nat.leb_le in H1. apply Nat.ltb_lt in H2.
  apply Nat.leb_le in H3. apply Nat.ltb_lt in H4.
  apply HP; [repeat split; assumption | auto].
Qed.

Lemma conv_data_agree P (c : Conv2D R) (x x' : NDArray R) n o i j :
  agree_on P x x' ->
  0 < groups c -> dC (shape x) mod groups c = 0 -> channels c mod groups c = 0 ->
  n < dN (shape x) -> o < channels c ->
  conv_reads c (shape x) P o i j ->
  conv_data c x n o i j = conv_data c x' n o i j.
Proof.
  intros Hag Hg Hin Hout Hn Ho Hreads. unfold conv_data.
  rewrite <- (agree_on_shape _ _ _ Hag).
  assert (Hacc : forall f f', f = f' ->
            (if use_bias c then radd f (bias c o) else f) =
            (if use_bias c then radd f' (bias c o) else f')) by (intros; subst; reflexivity).
  match goal with
  | |- match _ with Some a => apply_activation a ?y | None => ?y end =
       match _ with Some a' => apply_activation a' ?y' | None => ?y' end =>
      assert (Hy : y = y'); [|rewrite Hy; reflexivity]
  end.
  apply Hacc.
  apply rsum_ext; intros ci Hci. apply rsum_ext; intros a Ha.
  apply rsum_ext; intros b Hb. f_equal.
  apply (pad_read_agree P); [exact Hag | exact Hn | |].
  - apply group_channel_bound; assumption.
  - intros. apply Hreads; assumption.
Qed.

Lemma Conv2D_rel P (c : Conv2D R) (x x' y : NDArray R) :
  agree_on P x x' ->
  Conv2D_hybrid_forward c x = Some y ->
  exists y', Conv2D_hybrid_forward c x' = Some y' /\
             agree_on (conv_reads c (shape x) P) y y'.
Proof.
  intros Hag E. unfold Conv2D_hybrid_forward in *.
  rewrite <- (agree_on_shape _ _ _ Hag).
  apply bind_some in E as (s & Es & E). rewrite Es. simpl.
  inversion E; subst y; clear E.
  eexists; split; [reflexivity|].
  apply conv_shape_inv in Es as (Hg & Hin & Hout & HN & HC & _ & _).
  split; [reflexivity|]. simpl.
  intros n o i j (Hn & Ho & _ & _) Hreads.
  apply (conv_data_agree P); try assumption; lia.
Qed.

(** ** The other operators *)

Lemma slice_like_rel P (act act' x x' y : NDArray R) :
  agree_on P act act' -> shape x = shape x' ->
  F_slice_like act x = Some y ->
  exists y', F_slice_like act' x' = Some y' /\ agree_on P y y'.
Proof.
  intros [E HP] Ex Es. unfold F_slice_like in *. rewrite <- E, <- Ex.
  destruct (_ && _) eqn:Hb; [|discriminate].
  inversion Es; subst y; clear Es.
  eexists; split; [reflexivity|].
  apply andb_prop in Hb as [H1 H2]. apply Nat.leb_le in H1. apply Nat.leb_le in H2.
  split; [reflexivity|]. simpl. intros n c i j (Hn & Hc & Hi & Hj) Hp.
  apply HP; [repeat split; simpl in *; lia | exact Hp].
Qed.

Lemma VStack_rel P (c : Conv2D R) (x x' y : NDArray R) :
  agree_on P x x' ->
  VStack_hybrid_forward c x = Some y ->
  exists y', VStack_hybrid_forward c x' = Some y' /\
             agree_on (conv_reads c (shape x) P) y y'.
Proof.
  intros Hag E. unfold VStack_hybrid_forward in *.
  apply bind_some in E as (act & Ec & Es).
  destruct (Conv2D_rel P c x x' act Hag Ec) as (act' & Ec' & Hact).
  rewrite Ec'. simpl.
  exact (slice_like_rel _ act act' x x' y Hact (agree_on_shape _ _ _ Hag) Es).
Qed.

Lemma HStack_rel P (c : Conv2D R) (x x' y : NDArray R) :
  agree_on P x x' ->
  HStack_hybrid_forward c x = Some y ->
  exists y', HStack_hybrid_forward c x' = Some y' /\
             agree_on (conv_reads c (shape x) P) y y'.
Proof. exact (VStack_rel P c x x' y). Qed.

Lemma split_rel P (x x' a b : NDArray R) :
  agree_on P x x' ->
  F_split x = Some (a, b) ->
  exists a' b', F_split x' = Some (a', b') /\
                agree_on P a a' /\
                agree_on (fun c => P (dC (shape x) / 2 + c)) b b'.
Proof.
  intros [E HP] Es. unfold F_split in *. rewrite <- E.
  destruct (_ =? 0) eqn:Hm; [|discriminate].
  apply Nat.eqb_eq in Hm. apply Nat.Div0.div_exact in Hm.
  inversion Es; subst a b; clear Es.
  do 2 eexists; split; [reflexivity|].
  split; (split; [reflexivity|]); simpl;
    intros n c i j (Hn & Hc & Hi & Hj) Hp; simpl in *;
    (apply HP; [repeat split; lia | exact Hp]).
Qed.

Lemma concat_rel P Q (a a' b b' y : NDArray R) :
  agree_on P a a' -> agree_on Q b b' ->
  F_concat a b = Some y ->
  exists y', F_concat a' b' = Some y' /\
             agree_on (cat_pred (dC (shape a)) P Q) y y'.
Proof.
  intros [Ea HP] [Eb HQ] Ec. unfold F_concat in *. rewrite <- Ea, <- Eb.
  destruct (_ && _) eqn:Hb; [|discriminate].
  inversion Ec; subst y; clear Ec.
  eexists; split; [reflexivity|].
  apply andb_prop in Hb as [Hb H3]. apply andb_prop in Hb as [H1 H2].
  apply Nat.eqb_eq in H1. apply Nat.eqb_eq in H2. apply Nat.eqb_eq in H3.
  split; [reflexivity|]. unfold cat_pred. simpl.
  intros n c i j (Hn & Hc & Hi & Hj) Hp; simpl in *.
  destruct (c <? dC (shape a)) eqn:Hlt.
  - apply Nat.ltb_lt in Hlt. apply HP; [repeat split; lia | exact Hp].
  - apply Nat.ltb_ge in Hlt. apply HQ; [repeat split; lia | exact Hp].
Qed.

Lemma map_rel (f : R -> R) P (a a' : NDArray R) :
  agree_on P a a' -> agree_on P (map_nd f a) (map_nd f a').
Proof.
  intros [E HP]. split; [exact E|]. simpl.
  intros n c i j Hin Hp. f_equal. apply HP; assumption.
Qed.

Lemma bdim_bidx (a b d k : nat) :
  bdim a b = Some d -> k < d -> bidx a k < a /\ bidx b k < b.
Proof.
  unfold bdim, bidx. intros E Hk.
  destruct (a =? b) eqn:Hab.
  - apply Nat.eqb_eq in Hab. inversion E; subst.
    destruct (d =? 1); lia.
  - apply Nat.eqb_neq in Hab.
    destruct (a =? 1) eqn:Ha.
    + apply Nat.eqb_eq in Ha. inversion E; subst.
      destruct (d =? 1); lia.
    + destruct (b =? 1) eqn:Hb; [|discriminate].
      apply Nat.eqb_eq in Hb. inversion E; subst. lia.
Qed.

Lemma bidx_same (d k : nat) : k < d -> bidx d k = k.
Proof.
  unfold bidx. intros Hk. destruct (d =? 1) eqn:E; [|reflexivity].
  apply Nat.eqb_eq in E. lia.
Qed.

Lemma bdim_same (d : nat) : bdim d d = Some d.
Proof. unfold bdim. rewrite Nat.eqb_refl. reflexivity. Qed.

Lemma bshape_same (s : Shape) : bshape s s = Some s.
Proof.
  unfold bshape. rewrite !bdim_same. simpl. destruct s; reflexivity.
Qed.

Lemma bshape_inv (s t u : Shape) :
  bshape s t = Some u ->
  bdim (dN s) (dN t) = Some (dN u) /\ bdim (dC s) (dC t) = Some (dC u) /\
  bdim (dH s) (dH t) = Some (dH u) /\ bdim (dW s) (dW t) = Some (dW u).
Proof.
  unfold bshape. intros E.
  apply bind_some in E as (n & En & E). apply bind_some in E as (c & Ec & E).
  apply bind_some in E as (h & Eh & E). apply bind_some in E as (w & Ew & E).
  inversion E; subst u; simpl. auto.
Qed.

Lemma broadcast_rel (f : R -> R -> R) P Q (a a' b b' y : NDArray R) :
  agree_on P a a' -> agree_on Q b b' ->
  broadcast f a b = Some y ->
  exists y', broadcast f a' b' = Some y' /\
             agree_on (fun c i j => bpred (shape a) P c i j /\
                                    bpred (shape b) Q c i j) y y'.
Proof.
  intros [Ea HP] [Eb HQ] E. unfold broadcast in *. rewrite <- Ea, <- Eb.
  apply bind_some in E as (u & Eu & E). rewrite Eu. simpl.
  inversion E; subst y; clear E.
  eexists; split; [reflexivity|].
  apply bshape_inv in Eu as (Hn & Hc & Hh & Hw).
  split; [reflexivity|]. unfold bpred. simpl.
  intros n c i j (Kn & Kc & Ki & Kj) [Hp Hq].
  destruct (bdim_bidx _ _ _ n Hn Kn), (bdim_bidx _ _ _ c Hc Kc),
           (bdim_bidx _ _ _ i Hh Ki), (bdim_bidx _ _ _ j Hw Kj).
  f_equal; [apply HP | apply HQ]; try assumption; repeat split; assumption.
Qed.

(** With equal shapes the arithmetic is element by element. *)
Lemma broadcast_same (f : R -> R -> R) (a b : NDArray R) :
  shape a = shape b ->
  exists y, broadcast f a b = Some y /\ shape y = shape a /\
            forall n c i j, in_shape (shape a) n c i j ->
                            data y n c i j = f (data a n c i j) (data b n c i j).
Proof.
  intros E. unfold broadcast. rewrite <- E, bshape_same. simpl.
  eexists; split; [reflexivity|]. split; [reflexivity|]. simpl.
  intros n c i j (Hn & Hc & Hi & Hj).
  rewrite !bidx_same by assumption. reflexivity.
Qed.

(** ** Shapes of the forward passes *)

Lemma conv_out_dim_unit (d p k : nat) :
  0 < k -> k <= d + 2 * p ->
  conv_out_dim d p k 1 1 = Some (d + 2 * p - k + 1).
Proof.
  intros Hk Hle. unfold conv_out_dim.
  replace (1 * (k - 1) + 1) with k by lia.
  replace (0 <? k) with true by (symmetry; apply Nat.ltb_lt; exact Hk).
  replace (k <=? d + 2 * p) with true by (symmetry; apply Nat.leb_le; exact Hle).
  cbn [andb Nat.ltb Nat.leb]. rewrite Nat.div_1_r. reflexivity.
Qed.

Lemma conv_ok_check (c : Conv2D R) (Cin : nat) :
  conv_ok c Cin ->
  (0 <? groups c) && (Cin mod groups c =? 0) && (channels c mod groups c =? 0) &&
  ((in_channels c =? 0) || (in_channels c =? Cin)) = true.
Proof.
  intros (Hg & Hin & Hout & Hic).
  apply andb_true_intro; split; [|destruct Hic as [E|E]; rewrite E, Nat.eqb_refl;
                                  [reflexivity | apply orb_true_r]].
  rewrite Hin, Hout. simpl. rewrite andb_true_r, andb_true_r.
  apply Nat.ltb_lt. exact Hg.
Qed.

Lemma Conv2D_forward_shape (c : Conv2D R) (x : NDArray R) :
  conv_ok c (dC (shape x)) -> keeps_size c ->
  0 < dH (shape x) -> 0 < dW (shape x) ->
  Conv2D_hybrid_forward c x =
  Some (mkND (mkShape (dN (shape x)) (channels c)
                (dH (shape x) + 2 * fst (padding c) - fst (kernel_size c) + 1)
                (dW (shape x) + 2 * snd (padding c) - snd (kernel_size c) + 1))
             (conv_data c x)).
Proof.
  intros Hok (Hs & Hd & Hkh & Hkw & Hph & Hpw) HH HW.
  unfold Conv2D_hybrid_forward, conv_shape.
  rewrite (conv_ok_check _ _ Hok), Hs, Hd. simpl fst; simpl snd.
  rewrite !conv_out_dim_unit by lia. reflexivity.
Qed.

Lemma masked_forward_shape (c : Conv2D R) (x : NDArray R) :
  conv_ok c (dC (shape x)) -> keeps_size c ->
  0 < dH (shape x) -> 0 < dW (shape x) ->
  VStack_hybrid_forward c x =
  Some (mkND (mkShape (dN (shape x)) (channels c) (dH (shape x)) (dW (shape x)))
             (conv_data c x)).
Proof.
  intros Hok Hk HH HW. unfold VStack_hybrid_forward.
  rewrite Conv2D_forward_shape by assumption. simpl.
  destruct Hk as (_ & _ & Hkh & Hkw & Hph & Hpw).
  unfold F_slice_like. simpl.
  replace (_ && _) with true; [reflexivity|].
  symmetry. apply andb_true_intro; split; apply Nat.leb_le; lia.
Qed.

Lemma VStack_init_keeps_size ch ksize grp act ub
  (w : nat -> nat -> nat -> nat -> R) b inch kernel_type :
  0 < fst ksize -> 0 < snd ksize ->
  keeps_size (VStack_init ch ksize (1, 1) (1, 1) grp act ub w b inch kernel_type).
Proof.
  intros Hh Hw. unfold keeps_size, VStack_init.
  cbn [strides dilation kernel_size padding fst snd].
  repeat split; try assumption.
  - destruct (is_A kernel_type); lia.
  - pose proof (Nat.div_mod_eq (snd ksize) 2).
    pose proof (Nat.mod_upper_bound (snd ksize) 2). lia.
Qed.

Lemma HStack_init_keeps_size ch kernel_len grp act ub
  (w : nat -> nat -> nat -> nat -> R) b inch kernel_type :
  0 < kernel_len ->
  keeps_size (HStack_init ch kernel_len (1, 1) (1, 1) grp act ub w b inch kernel_type).
Proof.
  intros Hl. unfold keeps_size, HStack_init.
  cbn [strides dilation kernel_size padding fst snd].
  repeat split; try lia.
  destruct (is_A kernel_type); lia.
Qed.

Lemma opt_rel_of_rel (f : NDArray R -> option (NDArray R))
  (P : nat -> nat -> nat -> Prop) (Q : Shape -> nat -> nat -> nat -> Prop)
  (x x' : NDArray R) :
  (forall a a' y, agree_on P a a' -> f a = Some y ->
                  exists y', f a' = Some y' /\ agree_on (Q (shape a)) y y') ->
  agree_on P x x' ->
  opt_rel (agree_on (Q (shape x))) (f x) (f x').
Proof.
  intros Hrel Hag. unfold opt_rel.
  destruct (f x) as [y|] eqn:E.
  - destruct (Hrel _ _ _ Hag E) as (y' & E' & Hy). rewrite E'. exact Hy.
  - destruct (f x') as [y'|] eqn:E'; [|exact I].
    destruct (Hrel _ _ _ (agree_on_sym _ _ _ Hag) E') as (y & Ey & _).
    congruence.
Qed.

Lemma opt_rel_weaken {A B : Type} (r r' : A -> B -> Prop) (a : option A) (b : option B) :
  (forall y y', a = Some y -> b = Some y' -> r y y' -> r' y y') ->
  opt_rel r a b -> opt_rel r' a b.
Proof.
  intros Hr. unfold opt_rel. destruct a, b; auto.
Qed.

Lemma opt_rel_bind {A A' B B' : Type} (r : A -> A' -> Prop) (r2 : B -> B' -> Prop)
  (a : option A) (a' : option A') (f : A -> option B) (g : A' -> option B') :
  opt_rel r a a' ->
  (forall y y', a = Some y -> a' = Some y' -> r y y' -> opt_rel r2 (f y) (g y')) ->
  opt_rel r2 (bind a f) (bind a' g).
Proof.
  intros Ha Hf. destruct a as [y|], a' as [y'|]; simpl in *;
    try contradiction; auto.
Qed.

Lemma opt_rel_some {A B : Type} (r : A -> B -> Prop) (a : option A) (b : option B) y :
  opt_rel r a b -> a = Some y -> exists y', b = Some y' /\ r y y'.
Proof.
  intros Hr ->. destruct b as [y'|]; simpl in Hr; [eauto | contradiction].
Qed.

(** ** Two runs, operator by operator *)

Lemma Conv2D_orel P (c : Conv2D R) (x x' : NDArray R) :
  agree_on P x x' ->
  opt_rel (agree_on (conv_reads c (shape x) P))
    (Conv2D_hybrid_forward c x) (Conv2D_hybrid_forward c x').
Proof.
  intros Hag.
  apply (opt_rel_of_rel (Conv2D_hybrid_forward c) P (fun s => conv_reads c s P));
    [|exact Hag].
  intros a a' y. apply Conv2D_rel.
Qed.

Lemma VStack_orel P (c : Conv2D R) (x x' : NDArray R) :
  agree_on P x x' ->
  opt_rel (agree_on (conv_reads c (shape x) P))
    (VStack_hybrid_forward c x) (VStack_hybrid_forward c x').
Proof.
  intros Hag.
  apply (opt_rel_of_rel (VStack_hybrid_forward c) P (fun s => conv_reads c s P));
    [|exact Hag].
  intros a a' y. apply VStack_rel.
Qed.

Lemma HStack_orel P (c : Conv2D R) (x x' : NDArray R) :
  agree_on P x x' ->
  opt_rel (agree_on (conv_reads c (shape x) P))
    (HStack_hybrid_forward c x) (HStack_hybrid_forward c x').
Proof. exact (VStack_orel P c x x'). Qed.

Lemma split_orel P (x x' : NDArray R) :
  agree_on P x x' ->
  opt_rel (pair_rel (agree_on P) (agree_on (fun c => P (dC (shape x) / 2 + c))))
    (F_split x) (F_split x').
Proof.
  intros Hag. destruct (F_split x) as [[a b]|] eqn:E.
  - destruct (split_rel P x x' a b Hag E) as (a' & b' & E' & Ha & Hb).
    rewrite E'. split; assumption.
  - destruct (F_split x') as [[a' b']|] eqn:E'; [|exact I].
    destruct (split_rel P x' x a' b' (agree_on_sym _ _ _ Hag) E')
      as (a & b & E'' & _).
    congruence.
Qed.

Lemma concat_orel P Q (a a' b b' : NDArray R) :
  agree_on P a a' -> agree_on Q b b' ->
  opt_rel (agree_on (cat_pred (dC (shape a)) P Q)) (F_concat a b) (F_concat a' b').
Proof.
  intros Ha Hb. destruct (F_concat a b) as [y|] eqn:E.
  - destruct (concat_rel P Q a a' b b' y Ha Hb E) as (y' & E' & Hy).
    rewrite E'. exact Hy.
  - destruct (F_concat a' b') as [y'|] eqn:E'; [|exact I].
    destruct (concat_rel P Q a' a b' b y' (agree_on_sym _ _ _ Ha)
                (agree_on_sym _ _ _ Hb) E') as (y & E'' & _).
    congruence.
Qed.

Lemma broadcast_orel (f : R -> R -> R) P Q (a a' b b' : NDArray R) :
  agree_on P a a' -> agree_on Q b b' ->
  opt_rel (agree_on (fun c i j => bpred (shape a) P c i j /\ bpred (shape b) Q c i j))
    (broadcast f a b) (broadcast f a' b').
Proof.
  intros Ha Hb. destruct (broadcast f a b) as [y|] eqn:E.
  - destruct (broadcast_rel f P Q a a' b b' y Ha Hb E) as (y' & E' & Hy).
    rewrite E'. exact Hy.
  - destruct (broadcast f a' b') as [y'|] eqn:E'; [|exact I].
    destruct (broadcast_rel f P Q a' a b' b y' (agree_on_sym _ _ _ Ha)
                (agree_on_sym _ _ _ Hb) E') as (y & E'' & _).
    congruence.
Qed.

Lemma broadcast_orel_same (f : R -> R -> R) P Q (a a' b b' : NDArray R) :
  agree_on P a a' -> agree_on Q b b' -> shape a = shape b ->
  opt_rel (agree_on (fun c i j => P c i j /\ Q c i j))
    (broadcast f a b) (broadcast f a' b').
Proof.
  intros Ha Hb Es.
  refine (opt_rel_weaken _ _ _ _ _ (broadcast_orel f P Q a a' b b' Ha Hb)).
  intros y y' Ey _ Hy. apply (agree_on_weaken _ _ _ _ Hy).
  destruct (broadcast_same f a b Es) as (y0 & Ey0 & Sy & _).
  assert (y0 = y) as -> by congruence.
  rewrite Sy. intros c i j Hc Hi Hj [Hp Hq]. unfold bpred.
  rewrite <- Es, !bidx_same by assumption. split; assumption.
Qed.

(** Both runs of the residual connection: without a residual the result
    agrees where the horizontal stream does; with one, it agrees everywhere
    when both operands do. *)
Lemma residual_orel P Q (self : GatedLayer R) (hx hx' pre pre' : NDArray R) :
  agree_on P hx hx' -> agree_on Q pre pre' ->
  opt_rel (agree_on (fun c i j =>
             if gl_residual self then forall c' i' j', P c' i' j' /\ Q c' i' j'
             else Q c i j))
    (residual_connection self hx pre) (residual_connection self hx' pre').
Proof.
  intros Hx Hp. unfold residual_connection.
  rewrite <- (agree_on_shape _ _ _ Hx).
  destruct (gl_residual self); simpl.
  - destruct (_ <? _).
    + eapply opt_rel_bind.
      * apply (concat_orel P (fun _ _ _ => True)); [exact Hx | apply agree_on_refl].
      * intros y y' _ _ Hy.
        refine (opt_rel_weaken _ _ _ _ _ (broadcast_orel radd _ _ _ _ _ _ Hp Hy)).
        intros z z' _ _ Hz. apply (agree_on_weaken _ _ _ _ Hz).
        intros c i j _ _ _ Hall. unfold bpred, cat_pred. split; [apply Hall|].
        destruct (_ <? _); [apply Hall | exact I].
    + refine (opt_rel_weaken _ _ _ _ _ (broadcast_orel radd _ _ _ _ _ _ Hp Hx)).
      intros z z' _ _ Hz. apply (agree_on_weaken _ _ _ _ Hz).
      intros c i j _ _ _ Hall. unfold bpred. split; apply Hall.
  - exact Hp.
Qed.

(** ** Shapes of results *)

Lemma VStack_shape_inv (c : Conv2D R) (x y : NDArray R) :
  VStack_hybrid_forward c x = Some y ->
  shape y = mkShape (dN (shape x)) (channels c) (dH (shape x)) (dW (shape x)).
Proof.
  unfold VStack_hybrid_forward, Conv2D_hybrid_forward. intros E.
  apply bind_some in E as (act & Ea & Es).
  apply bind_some in Ea as (s & Esh & Ea). inversion Ea; subst act; clear Ea.
  apply conv_shape_inv in Esh as (_ & _ & _ & HN & HC & _ & _).
  unfold F_slice_like in Es. destruct (_ && _); [|discriminate].
  inversion Es; simpl. rewrite HN, HC. reflexivity.
Qed.

Lemma split_shape_inv (x a b : NDArray R) :
  F_split x = Some (a, b) ->
  shape a = mkShape (dN (shape x)) (dC (shape x) / 2) (dH (shape x)) (dW (shape x)) /\
  shape b = mkShape (dN (shape x)) (dC (shape x) / 2) (dH (shape x)) (dW (shape x)) /\
  dC (shape x) = 2 * (dC (shape x) / 2).
Proof.
  unfold F_split. intros E. destruct (_ =? 0) eqn:Hm; [|discriminate].
  inversion E; subst a b; simpl.
  apply Nat.eqb_eq in Hm. apply Nat.Div0.div_exact in Hm. auto.
Qed.

Lemma broadcast_shape_same (f : R -> R -> R) (a b y : NDArray R) :
  shape a = shape b -> broadcast f a b = Some y -> shape y = shape a.
Proof.
  intros Es E. destruct (broadcast_same f a b Es) as (y0 & E0 & S0 & _).
  congruence.
Qed.

(** ** The gated block *)





Lemma residual_connection_unfold (self : GatedLayer R) (hx hstack_preres : NDArray R) :
  residual_connection self hx hstack_preres =
  if negb (gl_residual self) then Some hstack_preres
  else if dC (shape hx) <? gl_channels self
       then nd_add hstack_preres (zero_pad_channels hx (gl_channels self))
       else nd_add hstack_preres hx.
Proof.
  unfold residual_connection.
  destruct (negb (gl_residual self)); [reflexivity|].
  destruct (_ <? _) eqn:Hlt; [|reflexivity].
  apply Nat.ltb_lt in Hlt.
  unfold F_concat, F_zeros. cbn [shape dN dC dH dW].
  rewrite !Nat.eqb_refl. cbn [andb bind].
  unfold zero_pad_channels.
  replace (dC (shape hx) + (gl_channels self - dC (shape hx)))
    with (gl_channels self) by lia.
  reflexivity.
Qed.

(** C4 (as amended).  Without [residual] the horizontal result is returned
    as it is.  With [residual], an input of fewer channels than [channels]
    is padded with zero channels up to [channels] and added; an input of
    [channels] channels or more is added as it is. *)
Theorem residual_connection_cases :
  forall (self : GatedLayer R) (hx hstack_preres : NDArray R),
    residual_connection self hx hstack_preres =
    if negb (gl_residual self) then Some hstack_preres
    else if dC (shape hx) <? gl_channels self
         then nd_add hstack_preres (zero_pad_channels hx (gl_channels self))
         else nd_add hstack_preres hx.
Proof. exact residual_connection_unfold. Qed.

(** C10.  Two inputs of one shape that agree on the first half of their
    channels give, through any [GatedLayer], outputs that agree on the
    first [channels] output channels (or both passes fail): the vertical
    output never reads the horizontal input. *)
Theorem vertical_stream_ignores_horizontal_input :
  forall ch ksize str dil grp ub p inch kernel_type residual (x x' : NDArray R),
    let L := GatedLayer_init ch ksize str dil grp ub p inch kernel_type residual in
    shape x = shape x' ->
    (forall n c i j, in_shape (shape x) n c i j -> c < dC (shape x) / 2 ->
                     data x n c i j = data x' n c i j) ->
    opt_rel (agree_on (fun c _ _ => c < ch))
      (GatedLayer_hybrid_forward L x) (GatedLayer_hybrid_forward L x').
Proof.
  intros ch ksize str dil grp ub p inch kernel_type residual x x' L Es Hd.
  assert (Hag : agree_on (fun c _ _ => c < dC (shape x) / 2) x x')
    by (split; assumption).
  unfold GatedLayer_hybrid_forward.
  eapply opt_rel_bind; [apply (split_orel _ _ _ Hag)|].
  intros [vx hx] [vx' hx'] E _ [Hv Hh]. cbn [fst snd] in Hv, Hh. cbn beta iota.
  destruct (split_shape_inv _ _ _ E) as (Svx & _ & _).
  assert (Hv1 : nd_eq vx vx').
  { apply (agree_on_weaken _ _ _ _ Hv). intros c i j Hc _ _ _.
    rewrite Svx in Hc. exact Hc. }
  assert (Hh1 : agree_on (fun _ _ _ => False) hx hx').
  { apply (agree_on_weaken _ _ _ _ Hh). intros; contradiction. }
  eapply opt_rel_bind; [apply (VStack_orel _ _ _ _ Hv1)|].
  intros v v' Ev _ Hvv.
  assert (Hv2 : nd_eq v v').
  { apply (agree_on_weaken _ _ _ _ Hvv). intros c i j _ _ _ _.
    unfold conv_reads. intros; exact I. }
  eapply opt_rel_bind; [apply (HStack_orel _ _ _ _ Hh1)|].
  intros hs hs' _ _ Hhs.
  eapply opt_rel_bind; [apply (Conv2D_orel _ _ _ _ Hv2)|].
  intros vh vh' _ _ Hvh.
  eapply opt_rel_bind; [apply (broadcast_orel radd _ _ _ _ _ _ Hhs Hvh)|].
  intros h h' _ _ Hh2.
  eapply opt_rel_bind; [apply (split_orel _ _ _ Hv2)|].
  intros [vs vt] [vs' vt'] Esv _ [Hvs Hvt]. cbn [fst snd] in Hvs, Hvt. cbn beta iota.
  eapply opt_rel_bind; [apply (split_orel _ _ _ Hh2)|].
  intros [hsig htan] [hsig' htan'] _ _ [Hs1 Hs2]. cbn [fst snd] in Hs1, Hs2.
  cbn beta iota.
  eapply opt_rel_bind;
    [apply (broadcast_orel rmul _ _ _ _ _ _
              (map_rel s_sigmoid _ _ _ Hvs) (map_rel s_tanh _ _ _ Hvt))|].
  intros vout vout' Evout _ Hvout.
  eapply opt_rel_bind;
    [apply (broadcast_orel rmul _ _ _ _ _ _
              (map_rel s_sigmoid _ _ _ Hs1) (map_rel s_tanh _ _ _ Hs2))|].
  intros gated gated' _ _ Hg.
  eapply opt_rel_bind; [apply (Conv2D_orel _ _ _ _ Hg)|].
  intros pre pre' _ _ Hpre.
  eapply opt_rel_bind; [apply (residual_orel _ _ L _ _ _ _ Hh1 Hpre)|].
  intros ho ho' _ _ Hho.
  refine (opt_rel_weaken _ _ _ _ _ (concat_orel _ _ _ _ _ _ Hvout Hho)).
  intros y y' _ _ Hy. apply (agree_on_weaken _ _ _ _ Hy).
  intros c i j _ _ _ Hc. unfold cat_pred.
  assert (Sout : dC (shape vout) = ch).
  { destruct (split_shape_inv _ _ _ Esv) as (Svs & Svt & _).
    rewrite (broadcast_shape_same rmul (F_sigmoid vs) (F_tanh vt) vout)
      by (try exact Evout; simpl; congruence).
    unfold F_sigmoid, map_nd. cbn [shape]. rewrite Svs. cbn [dC].
    rewrite (VStack_shape_inv _ _ _ Ev). cbn [dC].
    unfold L, GatedLayer_init, VStack_init. cbn [gl_vstack channels].
    apply Nat.div_mul. discriminate. }
  rewrite Sout. apply Nat.ltb_lt in Hc. rewrite Hc.
  unfold bpred. split; exact I.
Qed.

(** ** Success of the forward passes *)

Lemma F_split_ok (x : NDArray R) (N m Hh Ww : nat) :
  shape x = mkShape N (2 * m) Hh Ww ->
  exists a b, F_split x = Some (a, b) /\
              shape a = mkShape N m Hh Ww /\ shape b = mkShape N m Hh Ww.
Proof.
  intros Es. unfold F_split. rewrite Es. cbn [dN dC dH dW].
  rewrite (Nat.mul_comm 2 m), Nat.Div0.mod_mul, Nat.div_mul by discriminate.
  cbn [Nat.eqb]. do 2 eexists. split; [reflexivity|]. split; reflexivity.
Qed.

Lemma VStack_ok (c : Conv2D R) (x : NDArray R) (N C Hh Ww : nat) :
  shape x = mkShape N C Hh Ww -> conv_ok c C -> keeps_size c ->
  0 < Hh -> 0 < Ww ->
  exists y, VStack_hybrid_forward c x = Some y /\
            shape y = mkShape N (channels c) Hh Ww.
Proof.
  intros Es Hok Hk HH HW.
  rewrite masked_forward_shape; rewrite ?Es; try assumption.
  eexists; split; reflexivity.
Qed.

Lemma HStack_ok (c : Conv2D R) (x : NDArray R) (N C Hh Ww : nat) :
  shape x = mkShape N C Hh Ww -> conv_ok c C -> keeps_size c ->
  0 < Hh -> 0 < Ww ->
  exists y, HStack_hybrid_forward c x = Some y /\
            shape y = mkShape N (channels c) Hh Ww.
Proof. exact (VStack_ok c x N C Hh Ww). Qed.

Lemma pointwise_keeps_size (c : Conv2D R) : pointwise c -> keeps_size c.
Proof.
  intros (Hk & Hs & Hp & Hd). unfold keeps_size.
  rewrite Hk, Hs, Hp, Hd. cbn [fst snd]. repeat split; lia.
Qed.

Lemma pointwise_ok (c : Conv2D R) (x : NDArray R) (N C Hh Ww : nat) :
  shape x = mkShape N C Hh Ww -> conv_ok c C -> pointwise c ->
  0 < Hh -> 0 < Ww ->
  exists y, Conv2D_hybrid_forward c x = Some y /\
            shape y = mkShape N (channels c) Hh Ww.
Proof.
  intros Es Hok Hp HH HW.
  rewrite Conv2D_forward_shape; rewrite ?Es; try assumption;
    [|apply pointwise_keeps_size; exact Hp].
  eexists; split; [reflexivity|]. cbn [shape dN dC dH dW].
  destruct Hp as (Hk & _ & Hpad & _). rewrite Hk, Hpad. cbn [fst snd].
  f_equal; lia.
Qed.

Lemma broadcast_ok (f : R -> R -> R) (a b : NDArray R) (s : Shape) :
  shape a = s -> shape b = s ->
  exists y, broadcast f a b = Some y /\ shape y = s.
Proof.
  intros Ea Eb.
  destruct (broadcast_same f a b) as (y & Ey & Sy & _); [congruence|].
  exists y. split; [exact Ey | congruence].
Qed.

Lemma concat_ok (a b : NDArray R) (N C1 C2 Hh Ww : nat) :
  shape a = mkShape N C1 Hh Ww -> shape b = mkShape N C2 Hh Ww ->
  exists y, F_concat a b = Some y /\ shape y = mkShape N (C1 + C2) Hh Ww.
Proof.
  intros Ea Eb. unfold F_concat. rewrite Ea, Eb. cbn [dN dC dH dW].
  rewrite !Nat.eqb_refl. cbn [andb]. eexists; split; reflexivity.
Qed.

Lemma residual_ok (self : GatedLayer R) (hx pre : NDArray R) (N m Hh Ww : nat) :
  shape hx = mkShape N m Hh Ww ->
  shape pre = mkShape N (gl_channels self) Hh Ww ->
  gl_residual self = false \/ m <= gl_channels self ->
  exists y, residual_connection self hx pre = Some y /\
            shape y = mkShape N (gl_channels self) Hh Ww.
Proof.
  intros Ex Ep Hres. rewrite residual_connection_unfold.
  destruct (gl_residual self) eqn:Er; cbn [negb].
  - destruct Hres as [Hf | Hle]; [discriminate|].
    rewrite Ex. cbn [dC]. destruct (m <? gl_channels self) eqn:Hlt.
    + apply broadcast_ok; [exact Ep|].
      unfold zero_pad_channels. rewrite Ex. reflexivity.
    + apply Nat.ltb_ge in Hlt. assert (m = gl_channels self) as Em by lia.
      apply broadcast_ok; [exact Ep|]. rewrite Ex, Em. reflexivity.
  - exists pre. split; [reflexivity | exact Ep].
Qed.

Lemma mod_double (a g : nat) : a mod g = 0 -> (a * 2) mod g = 0.
Proof.
  intros Ha. apply Nat.Div0.div_exact in Ha. rewrite Ha.
  rewrite <- Nat.mul_assoc, Nat.mul_comm. apply Nat.Div0.mod_mul.
Qed.

(** The output shape of a gated block with unit strides and dilation. *)
Lemma GatedLayer_ok ch ksize grp ub (p : GatedParams R) inch kernel_type residual
  (x : NDArray R) (N m Hh Ww : nat) :
  shape x = mkShape N (2 * m) Hh Ww ->
  0 < Hh -> 0 < Ww -> 0 < fst ksize -> 0 < snd ksize ->
  0 < grp -> m mod grp = 0 -> ch mod grp = 0 -> inch = 0 \/ inch = m ->
  residual = false \/ m <= ch ->
  exists y,
    GatedLayer_hybrid_forward
      (GatedLayer_init ch ksize (1, 1) (1, 1) grp ub p inch kernel_type residual) x
    = Some y /\
    shape y = mkShape N (2 * ch) Hh Ww.
Proof.
  intros Es HH HW Hkh Hkw Hg Hm Hch Hinch Hres.
  set (L := GatedLayer_init ch ksize (1, 1) (1, 1) grp ub p inch kernel_type residual).
  pose proof (mod_double _ _ Hch) as Hch2.
  unfold GatedLayer_hybrid_forward.
  destruct (F_split_ok x N m Hh Ww Es) as (vx & hx & E1 & Svx & Shx).
  rewrite E1. cbn [bind].
  destruct (VStack_ok (gl_vstack L) vx N m Hh Ww Svx) as (v & E2 & Sv);
    [repeat split; assumption | apply VStack_init_keeps_size; assumption | | |];
    try assumption.
  rewrite E2. cbn [bind].
  destruct (HStack_ok (gl_hstack L) hx N m Hh Ww Shx) as (hs & E3 & Shs);
    [repeat split; assumption | apply HStack_init_keeps_size; assumption | | |];
    try assumption.
  rewrite E3. cbn [bind].
  destruct (pointwise_ok (gl_vtoh L) v N (ch * 2) Hh Ww Sv) as (vh & E4 & Svh);
    [repeat split; auto | repeat split | | |]; try assumption.
  rewrite E4. cbn [bind].
  destruct (broadcast_ok radd hs vh _ Shs Svh) as (h & E5 & Sh).
  unfold nd_add. rewrite E5. cbn [bind].
  cbn [L GatedLayer_init gl_vstack gl_hstack gl_vtoh VStack_init HStack_init channels]
    in Sv, Sh.
  replace (ch * 2) with (2 * ch) in Sv, Sh by lia.
  destruct (F_split_ok v N ch Hh Ww Sv) as (vs & vt & E6 & Svs & Svt).
  rewrite E6. cbn [bind].
  destruct (F_split_ok h N ch Hh Ww Sh) as (hsig & htan & E7 & Shsig & Shtan).
  rewrite E7. cbn [bind].
  destruct (broadcast_ok rmul (F_sigmoid vs) (F_tanh vt) _ Svs Svt) as (vout & E8 & Svout).
  unfold nd_mul. rewrite E8. cbn [bind].
  destruct (broadcast_ok rmul (F_sigmoid hsig) (F_tanh htan) _ Shsig Shtan)
    as (gated & E9 & Sgated).
  rewrite E9. cbn [bind].
  destruct (pointwise_ok (gl_htoh L) gated N ch Hh Ww Sgated) as (pre & E10 & Spre);
    [repeat split; auto | repeat split | | |]; try assumption.
  rewrite E10. cbn [bind].
  destruct (residual_ok L hx pre N m Hh Ww Shx Spre Hres) as (ho & E11 & Sho).
  rewrite E11. cbn [bind].
  destruct (concat_ok vout ho N ch ch Hh Ww Svout Sho) as (y & E12 & Sy).
  exists y. split; [exact E12|]. rewrite Sy. f_equal. lia.
Qed.

(** C9 (as amended).  A [GatedLayer] with unit strides and dilation maps an
    input of shape (N, 2m, H, W) that its convolutions accept to an output
    of shape (N, 2*channels, H, W), provided the residual connection is off
    or m <= channels. *)
Theorem gated_layer_output_shape :
  forall ch ksize grp ub (p : GatedParams R) inch kernel_type residual
         (x : NDArray R) (m : nat),
    let L := GatedLayer_init ch ksize (1, 1) (1, 1) grp ub p inch kernel_type residual in
    positive_shape (shape x) -> dC (shape x) = 2 * m ->
    0 < ch -> 0 < fst ksize -> 0 < snd ksize ->
    0 < grp -> m mod grp = 0 -> ch mod grp = 0 -> inch = 0 \/ inch = m ->
    residual = false \/ m <= ch ->
    exists y,
      GatedLayer_hybrid_forward L x = Some y /\
      shape y = mkShape (dN (shape x)) (2 * ch) (dH (shape x)) (dW (shape x)).
Proof.
  intros ch ksize grp ub p inch kernel_type residual x m L
         (_ & _ & HH & HW) Hc _ Hkh Hkw Hg Hm Hch Hinch Hres.
  apply (GatedLayer_ok ch ksize grp ub p inch kernel_type residual x
           (dN (shape x)) m (dH (shape x)) (dW (shape x))); try assumption.
  rewrite <- Hc. destruct (shape x); reflexivity.
Qed.

(** ** Causality of the gated block *)

Lemma conv_reads_unit (c : Conv2D R) (s : Shape) (P : nat -> nat -> Prop) (o i j : nat) :
  strides c = (1, 1) -> dilation c = (1, 1) ->
  taps c P i j -> conv_reads c s (lift P) o i j.
Proof.
  unfold conv_reads, taps, lift. intros Hs Hd Ht ci a b _ Ha Hb.
  rewrite Hs, Hd. cbn [fst snd]. cbv zeta. rewrite !Nat.mul_1_r.
  intros H1 _ H2 _. apply Ht; assumption.
Qed.

Lemma conv_reads_pointwise (c : Conv2D R) (s : Shape) (P : nat -> nat -> Prop) (o i j : nat) :
  pointwise c -> P i j -> conv_reads c s (lift P) o i j.
Proof.
  intros (Hk & Hs & Hp & Hd) HP. apply conv_reads_unit; try assumption.
  unfold taps. rewrite Hk, Hp. cbn [fst snd]. intros a b Ha Hb _ _.
  replace (i + a - 0) with i by lia. replace (j + b - 0) with j by lia.
  exact HP.
Qed.

Lemma conv_out_dim_pointwise (d d' : nat) :
  conv_out_dim d 0 1 1 1 = Some d' -> d' = d.
Proof.
  unfold conv_out_dim. destruct (_ && _) eqn:Hb; [|discriminate].
  apply andb_prop in Hb as [_ Hle]. apply Nat.leb_le in Hle.
  rewrite Nat.div_1_r. intros E. inversion E. lia.
Qed.

Lemma pointwise_shape_inv (c : Conv2D R) (x y : NDArray R) :
  pointwise c -> Conv2D_hybrid_forward c x = Some y ->
  shape y = mkShape (dN (shape x)) (channels c) (dH (shape x)) (dW (shape x)).
Proof.
  intros (Hk & Hs & Hp & Hd) E. unfold Conv2D_hybrid_forward in E.
  apply bind_some in E as (s & Es & E). inversion E; subst y; clear E.
  apply conv_shape_inv in Es as (_ & _ & _ & HN & HC & Hh & Hw).
  rewrite Hk, Hs, Hp, Hd in Hh, Hw. cbn [fst snd] in Hh, Hw.
  apply conv_out_dim_pointwise in Hh. apply conv_out_dim_pointwise in Hw.
  cbn [shape]. destruct s; cbn [dN dC dH dW] in *. congruence.
Qed.

Lemma gating_orel P (t1 t2 t1' t2' : NDArray R) :
  agree_on (lift P) t1 t1' -> agree_on (lift P) t2 t2' -> shape t1 = shape t2 ->
  opt_rel (agree_on (lift P))
    (nd_mul (F_sigmoid t1) (F_tanh t2)) (nd_mul (F_sigmoid t1') (F_tanh t2')).
Proof.
  intros H1 H2 Es.
  refine (opt_rel_weaken _ _ _ _ _
            (broadcast_orel_same rmul _ _ _ _ _ _
               (map_rel s_sigmoid _ _ _ H1) (map_rel s_tanh _ _ _ H2) Es)).
  intros y y' _ _ Hy. apply (agree_on_weaken _ _ _ _ Hy).
  intros c i j _ _ _ Hp. split; exact Hp.
Qed.

(** One gated block without residual, unit strides and dilation.  If the
    vertical input agrees on [PVi] and the horizontal input on [PHi], the
    vertical output agrees wherever the vertical kernel stays inside
    [PVi], and the horizontal output wherever moreover the horizontal
    kernel stays inside [PHi]. *)
Lemma GatedLayer_causal ch ksize grp ub (p : GatedParams R) inch kernel_type
  (PVi PHi PVo PHo : nat -> nat -> Prop) (x x' : NDArray R) :
  let L := GatedLayer_init ch ksize (1, 1) (1, 1) grp ub p inch kernel_type false in
  agree_on (cat_pred (dC (shape x) / 2) (lift PVi) (lift PHi)) x x' ->
  (forall i j, PVo i j -> taps (gl_vstack L) PVi i j) ->
  (forall i j, PHo i j -> PVo i j) ->
  (forall i j, PHo i j -> taps (gl_hstack L) PHi i j) ->
  opt_rel (fun y y' => dC (shape y) = 2 * ch /\
                       agree_on (cat_pred ch (lift PVo) (lift PHo)) y y')
    (GatedLayer_hybrid_forward L x) (GatedLayer_hybrid_forward L x').
Proof.
  intros L Hag HV HHV HH.
  unfold GatedLayer_hybrid_forward.
  eapply opt_rel_bind; [apply (split_orel _ _ _ Hag)|].
  intros [vx hx] [vx' hx'] E _ [Hv Hh]. cbn [fst snd] in Hv, Hh. cbn beta iota.
  destruct (split_shape_inv _ _ _ E) as (Svx & Shx & _).
  assert (Hv1 : agree_on (lift PVi) vx vx').
  { apply (agree_on_weaken _ _ _ _ Hv). intros c i j Hc _ _ Hp.
    rewrite Svx in Hc. cbn [dC] in Hc. unfold cat_pred.
    apply Nat.ltb_lt in Hc. rewrite Hc. exact Hp. }
  assert (Hh1 : agree_on (lift PHi) hx hx').
  { apply (agree_on_weaken _ _ _ _ Hh). intros c i j _ _ _ Hp.
    unfold cat_pred.
    replace (_ <? _) with false by (symmetry; apply Nat.ltb_ge; lia).
    exact Hp. }
  clear Hv Hh.
  eapply opt_rel_bind; [apply (VStack_orel _ (gl_vstack L) _ _ Hv1)|].
  intros v v' Ev _ Hvv.
  assert (Hv2 : agree_on (lift PVo) v v').
  { apply (agree_on_weaken _ _ _ _ Hvv). intros c i j _ _ _ Hp.
    apply conv_reads_unit; [reflexivity | reflexivity | apply HV; exact Hp]. }
  clear Hvv.
  eapply opt_rel_bind; [apply (HStack_orel _ (gl_hstack L) _ _ Hh1)|].
  intros hs hs' Ehs _ Hhs.
  assert (Hhs2 : agree_on (lift PHo) hs hs').
  { apply (agree_on_weaken _ _ _ _ Hhs). intros c i j _ _ _ Hp.
    apply conv_reads_unit; [reflexivity | reflexivity | apply HH; exact Hp]. }
  clear Hhs.
  eapply opt_rel_bind; [apply (Conv2D_orel _ (gl_vtoh L) _ _ Hv2)|].
  intros vh vh' Evh _ Hvh.
  assert (Hvh2 : agree_on (lift PHo) vh vh').
  { apply (agree_on_weaken _ _ _ _ Hvh). intros c i j _ _ _ Hp.
    apply conv_reads_pointwise; [repeat split | apply HHV; exact Hp]. }
  clear Hvh.
  pose proof (VStack_shape_inv _ _ _ Ev) as Sv.
  pose proof (VStack_shape_inv _ _ _ Ehs) as Shs.
  assert (Pvtoh : pointwise (gl_vtoh L)) by (repeat split).
  assert (Svh : shape vh = shape hs).
  { rewrite (pointwise_shape_inv _ _ _ Pvtoh Evh), Shs, Sv, Svx, Shx.
    reflexivity. }
  eapply opt_rel_bind.
  { apply (broadcast_orel_same radd _ _ _ _ _ _ Hhs2 Hvh2). symmetry; exact Svh. }
  intros h h' _ _ Hh2.
  assert (Hh3 : agree_on (lift PHo) h h').
  { apply (agree_on_weaken _ _ _ _ Hh2). intros c i j _ _ _ Hp. split; exact Hp. }
  clear Hh2.
  eapply opt_rel_bind; [apply (split_orel _ _ _ Hv2)|].
  intros [vs vt] [vs' vt'] Esv _ [Hvs Hvt]. cbn [fst snd] in Hvs, Hvt. cbn beta iota.
  destruct (split_shape_inv _ _ _ Esv) as (Svs & Svt & _).
  eapply opt_rel_bind; [apply (split_orel _ _ _ Hh3)|].
  intros [hsig htan] [hsig' htan'] Esh _ [Hs1 Hs2]. cbn [fst snd] in Hs1, Hs2.
  cbn beta iota.
  destruct (split_shape_inv _ _ _ Esh) as (Shsig & Shtan & _).
  eapply opt_rel_bind; [apply (gating_orel PVo _ _ _ _ Hvs Hvt); congruence|].
  intros vout vout' Evout _ Hvout.
  eapply opt_rel_bind; [apply (gating_orel PHo _ _ _ _ Hs1 Hs2); congruence|].
  intros gated gated' _ _ Hg.
  eapply opt_rel_bind; [apply (Conv2D_orel _ (gl_htoh L) _ _ Hg)|].
  intros pre pre' Epre _ Hpre.
  assert (Hpre2 : agree_on (lift PHo) pre pre').
  { apply (agree_on_weaken _ _ _ _ Hpre). intros c i j _ _ _ Hp.
    apply conv_reads_pointwise; [repeat split | exact Hp]. }
  clear Hpre.
  assert (Phtoh : pointwise (gl_htoh L)) by (repeat split).
  pose proof (pointwise_shape_inv _ _ _ Phtoh Epre) as Spre.
  eapply opt_rel_bind.
  { apply (residual_orel (lift PHi) (lift PHo) L _ _ _ _ Hh1 Hpre2). }
  cbn [L GatedLayer_init gl_residual].
  intros ho ho' Eho _ Hho.
  assert (ho = pre) as -> by (unfold residual_connection in Eho; cbn in Eho; congruence).
  assert (Sout : dC (shape vout) = ch).
  { rewrite (broadcast_shape_same rmul (F_sigmoid vs) (F_tanh vt) vout)
      by (try exact Evout; unfold F_sigmoid, F_tanh, map_nd; cbn [shape]; congruence).
    unfold F_sigmoid, map_nd. cbn [shape]. rewrite Svs. cbn [dC].
    rewrite Sv. cbn [dC].
    unfold L, GatedLayer_init, VStack_init. cbn [gl_vstack channels].
    apply Nat.div_mul. discriminate. }
  refine (opt_rel_weaken _ _ _ _ _ (concat_orel _ _ _ _ _ _ Hvout Hho)).
  intros y y' Ey _ Hy. split.
  - unfold F_concat in Ey. destruct (_ && _); [|discriminate].
    inversion Ey. cbn [shape dC]. rewrite Sout, Spre. cbn [dC].
    unfold L, GatedLayer_init. cbn [gl_htoh channels]. lia.
  - apply (agree_on_weaken _ _ _ _ Hy).
    intros c i j _ _ _ Hc. rewrite Sout. exact Hc.
Qed.

(** ** The network *)

Lemma net_ok (p : NetParams R) (x : NDArray R) (N C Hh Ww : nat) :
  shape x = mkShape N C Hh Ww -> 0 < Hh -> 0 < Ww ->
  exists y, net p x = Some y /\ shape y = mkShape N 1 Hh Ww.
Proof.
  intros Es HH HW. unfold net, net_blocks.
  cbn [Sequential_forward Block_forward]. unfold GatedLayer_default.
  destruct (pointwise_ok (Conv2D_default 8 (1, 1) None (p_first p)) x N C Hh Ww Es)
    as (y0 & E0 & S0);
    [repeat split; auto; apply Nat.mod_1_r | repeat split | | |]; try assumption.
  rewrite E0. cbn [bind]. cbn [Conv2D_default channels] in S0.
  destruct (GatedLayer_ok 16 (5, 5) 1 true (p_gated p 0) 0 "A" false y0 N 4 Hh Ww S0)
    as (y1 & E1 & S1); cbn [fst snd]; auto; try lia.
  rewrite E1. cbn [bind].
  destruct (GatedLayer_ok 16 (5, 5) 1 true (p_gated p 1) 0 "B" false y1 N 16 Hh Ww S1)
    as (y2 & E2 & S2); cbn [fst snd]; auto; try lia.
  rewrite E2. cbn [bind].
  destruct (GatedLayer_ok 16 (5, 5) 1 true (p_gated p 2) 0 "B" false y2 N 16 Hh Ww S2)
    as (y3 & E3 & S3); cbn [fst snd]; auto; try lia.
  rewrite E3. cbn [bind].
  destruct (GatedLayer_ok 16 (5, 5) 1 true (p_gated p 3) 0 "B" false y3 N 16 Hh Ww S3)
    as (y4 & E4 & S4); cbn [fst snd]; auto; try lia.
  rewrite E4. cbn [bind].
  destruct (GatedLayer_ok 16 (5, 5) 1 true (p_gated p 4) 0 "B" false y4 N 16 Hh Ww S4)
    as (y5 & E5 & S5); cbn [fst snd]; auto; try lia.
  rewrite E5. cbn [bind].
  destruct (GatedLayer_ok 16 (5, 5) 1 true (p_gated p 5) 0 "B" false y5 N 16 Hh Ww S5)
    as (y6 & E6 & S6); cbn [fst snd]; auto; try lia.
  rewrite E6. cbn [bind].
  destruct (pointwise_ok (Conv2D_default 1 (1, 1) (Some relu) (p_last p)) y6 N (2 * 16)
              Hh Ww S6) as (y & E7 & S7); try assumption;
    [repeat split; auto; apply Nat.mod_1_r | repeat split |].
  rewrite E7. cbn [bind]. exists y. split; [reflexivity | exact S7].
Qed.

(** A type-B block keeps the causal regions of both streams: the
    vertical stream agrees on rows up to [i], the horizontal stream on the
    positions up to [(i, j)]. *)
Lemma GatedLayer_B_causal (p : GatedParams R) (i j : nat) (x x' : NDArray R) :
  dC (shape x) = 2 * 16 ->
  agree_on (cat_pred 16 (lift (fun r _ => r <= i)) (lift (upto i j))) x x' ->
  opt_rel (fun y y' => dC (shape y) = 2 * 16 /\
             agree_on (cat_pred 16 (lift (fun r _ => r <= i)) (lift (upto i j))) y y')
    (GatedLayer_hybrid_forward (GatedLayer_default 16 (5, 5) "B" false p) x)
    (GatedLayer_hybrid_forward (GatedLayer_default 16 (5, 5) "B" false p) x').
Proof.
  intros Hd Hag. unfold GatedLayer_default.
  apply (GatedLayer_causal 16 (5, 5) 1 true p 0 "B"
           (fun r _ => r <= i) (upto i j) (fun r _ => r <= i) (upto i j)).
  - rewrite Hd. exact Hag.
  - intros r q Hr. unfold taps. cbn. intros a b Ha Hb Hp1 Hp2. lia.
  - intros r q Hr. unfold upto in Hr. lia.
  - intros r q Hr. unfold taps. cbn. intros a b Ha Hb Hp1 Hp2.
    unfold upto in *. lia.
Qed.

(** The network is causal: what it returns at [(i, j)] and before is
    determined by the input strictly before [(i, j)] in row-major order. *)
Lemma net_causal (p : NetParams R) (i j : nat) (x x' : NDArray R) :
  agree_on (lift (before i j)) x x' ->
  opt_rel (agree_on (lift (upto i j))) (net p x) (net p x').
Proof.
  intros Hag. unfold net, net_blocks. cbn [Sequential_forward Block_forward].
  eapply opt_rel_bind; [apply (Conv2D_orel _ _ _ _ Hag)|].
  intros y0 y0' _ _ H0.
  assert (H0' : agree_on (cat_pred (dC (shape y0) / 2) (lift (before i j))
                            (lift (before i j))) y0 y0').
  { apply (agree_on_weaken _ _ _ _ H0). intros c r q _ _ _ Hp.
    apply conv_reads_pointwise; [repeat split|].
    unfold cat_pred in Hp. destruct (_ <? _); exact Hp. }
  clear H0.
  eapply opt_rel_bind.
  { unfold GatedLayer_default.
    apply (GatedLayer_causal 16 (5, 5) 1 true (p_gated p 0) 0 "A"
             (before i j) (before i j) (fun r _ => r <= i) (upto i j) _ _ H0').
    - intros r q Hr. unfold taps. cbn. intros a b Ha Hb Hp1 Hp2.
      unfold before. lia.
    - intros r q Hr. unfold upto in Hr. lia.
    - intros r q Hr. unfold taps. cbn. intros a b Ha Hb Hp1 Hp2.
      unfold upto, before in *. lia. }
  intros y1 y1' _ _ [D1 H1].
  eapply opt_rel_bind; [apply (GatedLayer_B_causal _ i j _ _ D1 H1)|].
  intros y2 y2' _ _ [D2 H2].
  eapply opt_rel_bind; [apply (GatedLayer_B_causal _ i j _ _ D2 H2)|].
  intros y3 y3' _ _ [D3 H3].
  eapply opt_rel_bind; [apply (GatedLayer_B_causal _ i j _ _ D3 H3)|].
  intros y4 y4' _ _ [D4 H4].
  eapply opt_rel_bind; [apply (GatedLayer_B_causal _ i j _ _ D4 H4)|].
  intros y5 y5' _ _ [D5 H5].
  eapply opt_rel_bind; [apply (GatedLayer_B_causal _ i j _ _ D5 H5)|].
  intros y6 y6' _ _ [D6 H6].
  assert (H6' : agree_on (lift (upto i j)) y6 y6').
  { apply (agree_on_weaken _ _ _ _ H6). intros c r q _ _ _ Hp.
    unfold cat_pred, lift in *. destruct (_ <? _); [|exact Hp].
    unfold upto in Hp. lia. }
  eapply opt_rel_bind; [apply (Conv2D_orel _ _ _ _ H6')|].
  intros y y' _ _ Hy. cbn [Sequential_forward opt_rel].
  apply (agree_on_weaken _ _ _ _ Hy).
  intros c r q _ _ _ Hp. apply conv_reads_pointwise; [repeat split | exact Hp].
Qed.

(** ** Loops *)

Lemma for_each_app {I S : Type} (l1 l2 : list I) (body : I -> S -> option S) (s : S) :
  for_each (l1 ++ l2) body s = (s' <- for_each l1 body s ;; for_each l2 body s').
Proof.
  revert s. induction l1 as [|k l1 IH]; intros s; simpl; [reflexivity|].
  destruct (body k s) as [s'|]; simpl; [apply IH | reflexivity].
Qed.



(** Two runs of a counted loop with an invariant indexed by the counter:
    both runs finish, and the invariant holds at the end. *)
Lemma for_each_seq_rel {St : Type} (Inv : nat -> St -> St -> Prop)
  (body : nat -> St -> option St) (len a : nat) (s t : St) :
  Inv a s t ->
  (forall k u v, a <= k < a + len -> Inv k u v ->
     exists u' v', body k u = Some u' /\ body k v = Some v' /\ Inv (S k) u' v') ->
  exists s' t', for_each (seq a len) body s = Some s' /\
                for_each (seq a len) body t = Some t' /\
                Inv (a + len) s' t'.
Proof.
  revert a s t. induction len as [|len IH]; intros a s t Ha Hstep.
  - exists s, t. rewrite Nat.add_0_r. simpl. auto.
  - destruct (Hstep a s t ltac:(lia) Ha) as (u' & v' & Eu & Ev & Hi).
    destruct (IH (S a) u' v' Hi) as (s' & t' & Es & Et & Hf).
    { intros k u v Hk. apply Hstep. lia. }
    exists s', t'. simpl. rewrite Eu, Ev. simpl.
    replace (a + S len) with (S a + len) by lia. auto.
Qed.

(** ** Image completion *)

Lemma completion_step_ok (f : NDArray R -> option (NDArray R)) (i j : nat)
  (r out : NDArray R) :
  f r = Some out -> dN (shape out) = dN (shape r) ->
  0 < dC (shape out) -> i < dH (shape out) -> j < dW (shape out) ->
  0 < dC (shape r) -> i < dH (shape r) -> j < dW (shape r) ->
  completion_step f i j r =
  Some (mkND (shape r)
          (fun n c i' j' =>
             if (c =? 0) && (i' =? i) && (j' =? j) then data out n 0 i j
             else data r n c i' j')).
Proof.
  intros E HN H1 H2 H3 H4 H5 H6. unfold completion_step. rewrite E. cbn [bind].
  unfold getitem.
  replace (_ && _) with true
    by (symmetry; repeat (apply andb_true_intro; split); apply Nat.ltb_lt; assumption).
  cbn [bind]. unfold setitem. cbn [vlen vdata].
  replace (_ && _) with true; [reflexivity|].
  symmetry. repeat (apply andb_true_intro; split);
    try (apply Nat.ltb_lt; assumption).
  apply Nat.eqb_eq. exact HN.
Qed.

Lemma completion_step_frame (f : NDArray R -> option (NDArray R)) (i j : nat)
  (r r' : NDArray R) :
  completion_step f i j r = Some r' ->
  shape r' = shape r /\
  forall n c i' j', c <> 0 \/ i' <> i \/ j' <> j ->
                    data r' n c i' j' = data r n c i' j'.
Proof.
  unfold completion_step. intros E.
  apply bind_some in E as (out & _ & E). apply bind_some in E as (v & _ & E).
  unfold setitem in E. destruct (_ && _); [|discriminate].
  inversion E; subst r'; clear E. split; [reflexivity|].
  intros n c i' j' Hne. cbn [data].
  destruct ((c =? 0) && (i' =? i) && (j' =? j)) eqn:Hb; [|reflexivity].
  apply andb_prop in Hb as [Hb H3]. apply andb_prop in Hb as [H1 H2].
  apply Nat.eqb_eq in H1. apply Nat.eqb_eq in H2. apply Nat.eqb_eq in H3. lia.
Qed.

Lemma for_each_frame {I : Type} (Q : NDArray R -> NDArray R -> Prop)
  (l : list I) (body : I -> NDArray R -> option (NDArray R)) (s s' : NDArray R) :
  (forall a, Q a a) -> (forall a b c, Q a b -> Q b c -> Q a c) ->
  (forall k u u', In k l -> body k u = Some u' -> Q u u') ->
  for_each l body s = Some s' -> Q s s'.
Proof.
  intros Hrefl Htrans. revert s. induction l as [|k l IH]; intros s Hbody E; simpl in E.
  - inversion E. apply Hrefl.
  - apply bind_some in E as (u & Eu & E).
    apply (Htrans _ u).
    + apply (Hbody k); [left; reflexivity | exact Eu].
    + apply IH; [|exact E]. intros k' a b Hin. apply Hbody. right; exact Hin.
Qed.


(** One row of the completion, in two runs.  Buffers that agree strictly
    before [(i, 0)] agree strictly before [(i, 28)] after the row. *)
Lemma completion_row_two_runs (f : NDArray R -> option (NDArray R)) (N i : nat)
  (u v : NDArray R) :
  (forall r, shape r = mkShape N 1 28 28 ->
             exists out, f r = Some out /\ shape out = mkShape N 1 28 28) ->
  (forall i j r r', agree_on (lift (before i j)) r r' ->
                    opt_rel (agree_on (lift (upto i j))) (f r) (f r')) ->
  i < 28 ->
  shape u = mkShape N 1 28 28 -> agree_on (lift (before i 0)) u v ->
  exists u' v',
    for_each (seq 0 28) (fun j r => completion_step f i j r) u = Some u' /\
    for_each (seq 0 28) (fun j r => completion_step f i j r) v = Some v' /\
    shape u' = mkShape N 1 28 28 /\ agree_on (lift (before i 28)) u' v'.
Proof.
  intros Hok Hcausal Hi Su Hag.
  destruct (for_each_seq_rel
              (fun j a b => shape a = mkShape N 1 28 28 /\
                            agree_on (lift (before i j)) a b)
              (fun j r => completion_step f i j r) 28 0 u v)
    as (u' & v' & Eu & Ev & Su' & Hag'); [split; assumption | | eauto 10].
  clear u v Su Hag. intros j u v [_ Hj] [Su Hag]. cbn in Hj.
  destruct (Hok u Su) as (out & Eo & So).
  destruct (opt_rel_some _ _ _ _ (Hcausal i j u v Hag) Eo) as (out' & Eo' & Hout).
  pose proof (agree_on_shape _ _ _ Hag) as Sv.
  pose proof (agree_on_shape _ _ _ Hout) as So'.
  rewrite (completion_step_ok f i j u out Eo)
    by (rewrite ?So, ?Su; cbn [dN dC dH dW]; lia).
  rewrite (completion_step_ok f i j v out' Eo')
    by (rewrite <- ?So', <- ?Sv, ?So, ?Su; cbn [dN dC dH dW]; lia).
  do 2 eexists. split; [reflexivity|]. split; [reflexivity|].
  cbn [shape]. split; [exact Su|]. split; [exact Sv|].
  cbn [shape data]. rewrite Su. intros n c r q (Hn & Hc & Hr & Hq) Hp.
  cbn [dN dC dH dW] in Hn, Hc, Hr, Hq. unfold lift, before in Hp.
  destruct ((c =? 0) && (r =? i) && (q =? j)) eqn:Hb.
  - destruct Hout as [_ Hd]. apply Hd.
    + rewrite So. repeat split; cbn [dN dC dH dW]; lia.
    + unfold lift, upto. lia.
  - destruct Hag as [_ Hd]. apply Hd.
    + rewrite Su. repeat split; cbn [dN dC dH dW]; lia.
    + unfold lift, before.
      assert (c = 0) as -> by lia. cbn [Nat.eqb andb] in Hb.
      apply andb_false_iff in Hb as [Hb | Hb]; apply Nat.eqb_neq in Hb; lia.
Qed.

(** The whole completion, in two runs of a causal, shape-preserving
    network on buffers that agree on rows 0 to 13. *)
Lemma completion_two_runs (f : NDArray R -> option (NDArray R)) (N : nat)
  (x x' : NDArray R) :
  (forall r, shape r = mkShape N 1 28 28 ->
             exists out, f r = Some out /\ shape out = mkShape N 1 28 28) ->
  (forall i j r r', agree_on (lift (before i j)) r r' ->
                    opt_rel (agree_on (lift (upto i j))) (f r) (f r')) ->
  shape x = mkShape N 1 28 28 -> agree_on (lift (fun r _ => r < 14)) x x' ->
  exists y y', completion f x = Some y /\ completion f x' = Some y' /\
               shape y = mkShape N 1 28 28 /\ nd_eq y y'.
Proof.
  intros Hok Hcausal Sx Hag. unfold completion.
  change (range 14 28) with (seq 14 14). change (range 0 28) with (seq 0 28).
  destruct (for_each_seq_rel
              (fun i a b => shape a = mkShape N 1 28 28 /\
                            agree_on (lift (before i 0)) a b)
              (fun i r => for_each (seq 0 28)
                            (fun j r' => completion_step f i j r') r) 14 14 x x')
    as (y & y' & Ey & Ey' & Sy & Hy).
  - split; [exact Sx|]. apply (agree_on_weaken _ _ _ _ Hag).
    intros c r q _ _ _ Hp. unfold lift, before in *. lia.
  - intros i u v Hi [Su Huv].
    destruct (completion_row_two_runs f N i u v Hok Hcausal ltac:(lia) Su Huv)
      as (u' & v' & Eu & Ev & Su' & Huv').
    exists u', v'. split; [exact Eu|]. split; [exact Ev|]. split; [exact Su'|].
    apply (agree_on_weaken _ _ _ _ Huv').
    rewrite Su'. cbn [dC dH dW]. intros c r q _ _ Hq Hp.
    unfold lift, before in *. lia.
  - exists y, y'. split; [exact Ey|]. split; [exact Ey'|]. split; [exact Sy|].
    apply (agree_on_weaken _ _ _ _ Hy).
    rewrite Sy. cbn [dC dH dW]. intros c r q _ Hr _ _.
    unfold lift, before. lia.
Qed.

(** The positions never written by the completion. *)
Lemma completion_frame (f : NDArray R -> option (NDArray R)) (x r : NDArray R) :
  completion f x = Some r ->
  shape r = shape x /\
  forall n c i j, c <> 0 \/ i < 14 \/ 28 <= i \/ 28 <= j ->
                  data r n c i j = data x n c i j.
Proof.
  unfold completion.
  apply (for_each_frame
           (fun a b => shape b = shape a /\
              forall n c i j, c <> 0 \/ i < 14 \/ 28 <= i \/ 28 <= j ->
                              data b n c i j = data a n c i j)).
  - intros a. split; reflexivity.
  - intros a b c [S1 D1] [S2 D2]. split; [congruence|].
    intros n k i j Hf. rewrite D2, D1 by exact Hf. reflexivity.
  - intros i u u' Hi. unfold range in Hi. apply in_seq in Hi.
    apply (for_each_frame
             (fun a b => shape b = shape a /\
                forall n c i j, c <> 0 \/ i < 14 \/ 28 <= i \/ 28 <= j ->
                                data b n c i j = data a n c i j)).
    + intros a. split; reflexivity.
    + intros a b c [S1 D1] [S2 D2]. split; [congruence|].
      intros n k i' j Hf. rewrite D2, D1 by exact Hf. reflexivity.
    + intros j a b Hj E. unfold range in Hj. apply in_seq in Hj.
      destruct (completion_step_frame f i j a b E) as [Sb Db].
      split; [exact Sb|]. intros n c i' j' Hf. apply Db. lia.
Qed.


(** C6.  For two MNIST-shaped batches that agree on rows 0 to 13, the
    completion succeeds on both and returns buffers that agree on every
    pixel, rows 14 to 27 included. *)
Theorem completion_depends_on_upper_half_only :
  forall (p : NetParams R) (N : nat) (x x' : NDArray R),
    shape x = mkShape N 1 28 28 -> shape x' = mkShape N 1 28 28 ->
    (forall n i j, n < N -> i < 14 -> j < 28 ->
                   data x n 0 i j = data x' n 0 i j) ->
    exists y y',
      completion (net p) x = Some y /\ completion (net p) x' = Some y' /\
      forall n i j, n < N -> i < 28 -> j < 28 ->
                    data y n 0 i j = data y' n 0 i j.
Proof.
  intros p N x x' Sx Sx' Hup.
  destruct (completion_two_runs (net p) N x x') as (y & y' & Ey & Ey' & Sy & Hy).
  - intros r Sr. apply (net_ok p r N 1 28 28 Sr); lia.
  - intros i j r r'. apply net_causal.
  - exact Sx.
  - split; [congruence|]. rewrite Sx.
    intros n c i j (Hn & Hc & Hi & Hj) Hp. cbn [dN dC dH dW] in *.
    unfold lift in Hp. assert (c = 0) as -> by lia. apply Hup; assumption.
  - exists y, y'. split; [exact Ey|]. split; [exact Ey'|].
    intros n i j Hn Hi Hj. destruct Hy as [_ Hd]. apply Hd; [|exact I].
    rewrite Sy. repeat split; cbn [dN dC dH dW]; lia.
Qed.

(** C8.  On an MNIST-shaped batch the completion finishes, and its result
    differs from the batch at most in channel 0 of rows 14 to 27: rows 0
    to 13 are those of the original images. *)
Theorem completion_preserves_upper_half :
  forall (p : NetParams R) (N : nat) (x : NDArray R),
    shape x = mkShape N 1 28 28 ->
    exists r,
      completion (net p) x = Some r /\ shape r = shape x /\
      forall n c i j, c <> 0 \/ i < 14 \/ 28 <= i \/ 28 <= j ->
                      data r n c i j = data x n c i j.
Proof.
  intros p N x Sx.
  destruct (completion_two_runs (net p) N x x) as (y & _ & Ey & _).
  - intros r Sr. apply (net_ok p r N 1 28 28 Sr); lia.
  - intros i j r r'. apply net_causal.
  - exact Sx.
  - apply agree_on_refl.
  - exists y. split; [exact Ey|]. apply (completion_frame _ _ _ Ey).
Qed.

(** ** Training loss *)


(** ** Masked convolutions *)

(** C1 (as amended).  With unit strides and dilation, the output of a
    [VStack] at row [i] is determined by the input rows above [i] for
    kernel type A and by the rows up to and including [i] for type B; the
    output of an [HStack] at [(i, j)] is determined by row [i] of the
    input, columns left of [j] for type A and columns up to and including
    [j] for type B.  Two inputs that agree there give outputs that agree at
    [(i, j)], or both passes fail. *)
Theorem masked_conv_receptive_field :
  forall ch ksize grp act ub (w : nat -> nat -> nat -> nat -> R) b inch
         kernel_type (x x' : NDArray R) (i j : nat),
    let V := VStack_init ch ksize (1, 1) (1, 1) grp act ub w b inch kernel_type in
    let Hs := HStack_init ch (snd ksize) (1, 1) (1, 1) grp act ub w b inch kernel_type in
    (agree_on (fun _ r _ => if is_A kernel_type then r < i else r <= i) x x' ->
     opt_rel (agree_on (fun _ r q => r = i /\ q = j))
       (VStack_hybrid_forward V x) (VStack_hybrid_forward V x')) /\
    (agree_on (fun _ r q => r = i /\ if is_A kernel_type then q < j else q <= j) x x' ->
     opt_rel (agree_on (fun _ r q => r = i /\ q = j))
       (HStack_hybrid_forward Hs x) (HStack_hybrid_forward Hs x')).
Proof.
  intros ch ksize grp act ub w b inch kernel_type x x' i j V Hs. split; intros Hag.
  - match type of Hag with agree_on ?P0 _ _ => set (P := P0) in * end.
    apply (opt_rel_weaken (agree_on (conv_reads V (shape x) P))).
    + intros y y' _ _ Hy. apply (agree_on_weaken _ _ _ _ Hy).
      intros c r q _ _ _ [-> ->]. unfold conv_reads, V, VStack_init, P.
      cbn [strides dilation kernel_size padding fst snd].
      intros ci a k _ Ha _. cbv zeta. intros Hp _ _ _.
      destruct (is_A kernel_type); lia.
    + apply (opt_rel_of_rel (VStack_hybrid_forward V) P
               (fun s => conv_reads V s P)); [|exact Hag].
      intros a a' y. apply VStack_rel.
  - match type of Hag with agree_on ?P0 _ _ => set (P := P0) in * end.
    apply (opt_rel_weaken (agree_on (conv_reads Hs (shape x) P))).
    + intros y y' _ _ Hy. apply (agree_on_weaken _ _ _ _ Hy).
      intros c r q _ _ _ [-> ->]. unfold conv_reads, Hs, HStack_init, P.
      cbn [strides dilation kernel_size padding fst snd].
      intros ci a k _ Ha Hk. cbv zeta. intros _ _ Hp _.
      destruct (is_A kernel_type); lia.
    + apply (opt_rel_of_rel (HStack_hybrid_forward Hs) P
               (fun s => conv_reads Hs s P)); [|exact Hag].
      intros a a' y. apply HStack_rel.
Qed.

(** C2 (as amended).  With unit strides and dilation, a kernel of positive
    size and an input the convolution accepts, the forward pass of [VStack]
    and of [HStack] returns an array of the height and width of its
    input. *)
Theorem masked_forward_crops_to_input :
  forall ch ksize grp act ub (w : nat -> nat -> nat -> nat -> R) b inch
         kernel_type (x : NDArray R),
    let V := VStack_init ch ksize (1, 1) (1, 1) grp act ub w b inch kernel_type in
    let Hs := HStack_init ch (snd ksize) (1, 1) (1, 1) grp act ub w b inch kernel_type in
    0 < fst ksize -> 0 < snd ksize ->
    0 < dH (shape x) -> 0 < dW (shape x) ->
    conv_ok V (dC (shape x)) ->
    (exists y, VStack_hybrid_forward V x = Some y /\
               dH (shape y) = dH (shape x) /\ dW (shape y) = dW (shape x)) /\
    (exists y, HStack_hybrid_forward Hs x = Some y /\
               dH (shape y) = dH (shape x) /\ dW (shape y) = dW (shape x)).
Proof.
  intros ch ksize grp act ub w b inch kernel_type x V Hs Hkh Hkw HH HW Hok.
  split.
  - eexists; split.
    + apply masked_forward_shape; try assumption.
      apply VStack_init_keeps_size; assumption.
    + split; reflexivity.
  - eexists; split.
    + apply (masked_forward_shape Hs); try assumption.
      apply HStack_init_keeps_size; assumption.
    + split; reflexivity.
Qed.

End Proofs.

(** * The theorems on small inputs *)

(** With every weight 1, a masked convolution returns the sum of the pixels
    it reads: type A sums what precedes the current pixel, type B includes
    it. *)
Example hstack_on_row3 :
  (exists y, HStack_hybrid_forward hstack_A_ones row3 = Some y /\
             shape y = shape row3 /\
             map (data y 0 0 0) [0; 1; 2] = [0; 1; 3]%Z) /\
  (exists y, HStack_hybrid_forward hstack_B_ones row3 = Some y /\
             shape y = shape row3 /\
             map (data y 0 0 0) [0; 1; 2] = [1; 3; 6]%Z).
Proof.
  split; eexists; (split; [reflexivity|]); split; reflexivity.
Qed.

Example vstack_on_col3 :
  (exists y, VStack_hybrid_forward vstack_A_ones col3 = Some y /\
             shape y = shape col3 /\
             map (fun i => data y 0 0 i 0) [0; 1; 2] = [0; 1; 3]%Z) /\
  (exists y, VStack_hybrid_forward vstack_B_ones col3 = Some y /\
             shape y = shape col3 /\
             map (fun i => data y 0 0 i 0) [0; 1; 2] = [1; 3; 6]%Z).
Proof.
  split; eexists; (split; [reflexivity|]); split; reflexivity.
Qed.

(** The convolution of a strided [VStack] on a 28x28 image is 17x14. *)
Example strided_convolution_shape :
  option_map shape (Conv2D_hybrid_forward vstack_strided img28)
  = Some (mkShape 1 1 17 14).
Proof. reflexivity. Qed.

(** C1, counterexample.  A type-B [VStack] reads the pixel to the right of
    the current one: two images that agree on every row above row 0 and at
    (0,0) itself give different outputs at (0,0). *)
Lemma vstack_B_reads_right_neighbour :
  exists y y',
    VStack_hybrid_forward vstack_B img_zero = Some y /\
    VStack_hybrid_forward vstack_B img_right = Some y' /\
    shape img_zero = shape img_right /\
    (forall n c r q, r < 0 \/ (r = 0 /\ q = 0) ->
                     data img_zero n c r q = data img_right n c r q) /\
    data y 0 0 0 0 <> data y' 0 0 0 0.
Proof.
  eexists; eexists.
  split; [reflexivity|]. split; [reflexivity|]. split; [reflexivity|].
  split.
  - intros n c r q [Hr | [-> ->]]; [lia | reflexivity].
  - vm_compute. discriminate.
Qed.

(** C1 (as amended) at position (1,1) of two 2x2 images that differ only
    there, for type A. *)
Lemma masked_conv_receptive_field_witness :
  opt_rel (agree_on (fun _ r q => r = 1 /\ q = 1))
    (VStack_hybrid_forward
       (VStack_init 1 (5, 5) (1, 1) (1, 1) 1 None true ones_weight zero_bias 0 "A")
       img_a)
    (VStack_hybrid_forward
       (VStack_init 1 (5, 5) (1, 1) (1, 1) 1 None true ones_weight zero_bias 0 "A")
       img_b) /\
  opt_rel (agree_on (fun _ r q => r = 1 /\ q = 1))
    (HStack_hybrid_forward
       (HStack_init 1 5 (1, 1) (1, 1) 1 None true ones_weight zero_bias 0 "A")
       img_a)
    (HStack_hybrid_forward
       (HStack_init 1 5 (1, 1) (1, 1) 1 None true ones_weight zero_bias 0 "A")
       img_b).
Proof.
  destruct (masked_conv_receptive_field 1 (5, 5) 1 None true ones_weight
              zero_bias 0 "A" img_a img_b 1 1) as [HV HH].
  split; [apply HV | apply HH]; (split; [reflexivity|]);
    intros n c i j _ Hi; simpl in Hi; unfold img_a, img_b; simpl.
  - assert (i = 0) as -> by lia. reflexivity.
  - destruct Hi as [-> Hj]. assert (j = 0) as -> by lia. reflexivity.
Defined.

(** C4, counterexample.  With [residual] and a residual input of 3
    channels against [channels = 2], the counts differ, and the block does
    not pad: the addition of the two arrays fails, where padding to 2
    channels as the sentence has it would have produced a sum. *)
Lemma wider_residual_is_not_padded :
  gl_residual gated_res = true /\
  dC (shape hx3) <> gl_channels gated_res /\
  residual_connection gated_res hx3 pre2 = None /\
  exists y, residual_as_claimed gated_res hx3 pre2 = Some y.
Proof.
  split; [reflexivity|]. split; [discriminate|]. split; [reflexivity|].
  eexists. reflexivity.
Qed.

(** C9, counterexample.  A gated layer of 2 channels with the residual
    connection returns nothing on an input of 6 channels: the residual
    input has 3 channels, the horizontal result 2. *)
Lemma gated_residual_wider_input_fails :
  gl_residual gated_res = true /\
  shape img6 = mkShape 1 (2 * 3) 1 1 /\
  GatedLayer_hybrid_forward gated_res img6 = None.
Proof. split; [reflexivity|]. split; reflexivity. Qed.

(** C9 on a 4-channel 2x2 input: m = 2 = channels, with the residual. *)
Lemma gated_layer_output_shape_witness :
  exists y,
    GatedLayer_hybrid_forward
      (GatedLayer_init 2 (5, 5) (1, 1) (1, 1) 1 true ones_gated 0 "A" true) img_ab4
    = Some y /\
    shape y = mkShape 1 (2 * 2) 2 2.
Proof.
  apply (gated_layer_output_shape 2 (5, 5) 1 true ones_gated 0 "A" true img_ab4 2);
    try reflexivity; unfold positive_shape; simpl; lia.
Defined.

(** C10 on two inputs that differ in channels 2 and 3 only. *)
Lemma vertical_stream_ignores_horizontal_input_witness :
  opt_rel (agree_on (fun c _ _ => c < 2))
    (GatedLayer_hybrid_forward
       (GatedLayer_init 2 (5, 5) (1, 1) (1, 1) 1 true ones_gated 0 "A" true) img_ab4)
    (GatedLayer_hybrid_forward
       (GatedLayer_init 2 (5, 5) (1, 1) (1, 1) 1 true ones_gated 0 "A" true) img_ab4').
Proof.
  apply (vertical_stream_ignores_horizontal_input 2 (5, 5) (1, 1) (1, 1) 1 true
           ones_gated 0 "A" true img_ab4 img_ab4').
  - reflexivity.
  - intros n c i j _ Hc. simpl in Hc. unfold img_ab4, img_ab4'. simpl.
    replace (c <? 2) with true by (symmetry; apply Nat.ltb_lt; exact Hc).
    reflexivity.
Defined.


(** C6 on a blank image and one that is white below row 14. *)
Lemma completion_depends_on_upper_half_only_witness :
  exists y y',
    completion (net ones_net) img28 = Some y /\
    completion (net ones_net) img28_lower = Some y' /\
    forall n i j, n < 1 -> i < 28 -> j < 28 -> data y n 0 i j = data y' n 0 i j.
Proof.
  apply (completion_depends_on_upper_half_only ones_net 1 img28 img28_lower).
  - reflexivity.
  - reflexivity.
  - intros n i j _ Hi _. unfold img28, img28_lower. cbn [data].
    replace (i <? 14) with true by (symmetry; apply Nat.ltb_lt; exact Hi).
    reflexivity.
Defined.

(** C8 on the image that is white below row 14. *)
Lemma completion_preserves_upper_half_witness :
  exists r,
    completion (net ones_net) img28_lower = Some r /\
    shape r = shape img28_lower /\
    forall n c i j, c <> 0 \/ i < 14 \/ 28 <= i \/ 28 <= j ->
                    data r n c i j = data img28_lower n c i j.
Proof.
  apply (completion_preserves_upper_half ones_net 1 img28_lower).
  reflexivity.
Defined.


(** C2, counterexample.  A [VStack] built with strides 2 returns nothing on
    a 28x28 image: the convolution's output is 17x14 and cannot be sliced
    like the input. *)
Lemma strided_vstack_forward_fails :
  VStack_hybrid_forward vstack_strided img28 = None.
Proof. reflexivity. Qed.

(** C2 on a 28x28 image, for the type-B layers of [net]. *)
Lemma masked_forward_crops_to_input_witness :
  (exists y, VStack_hybrid_forward
               (VStack_init 1 (5, 5) (1, 1) (1, 1) 1 None true ones_weight zero_bias 0 "B")
               img28 = Some y /\
             dH (shape y) = 28 /\ dW (shape y) = 28) /\
  (exists y, HStack_hybrid_forward
               (HStack_init 1 5 (1, 1) (1, 1) 1 None true ones_weight zero_bias 0 "B")
               img28 = Some y /\
             dH (shape y) = 28 /\ dW (shape y) = 28).
Proof.
  apply (masked_forward_crops_to_input 1 (5, 5) 1 None true ones_weight
           zero_bias 0 "B" img28); simpl; try lia.
  unfold conv_ok; simpl. repeat split; auto.
Defined.

(** * Further properties of the code *)

Section FurtherProofs.

Context {R : Type} `{Scalar R}.

(** ** Masked convolutions *)

(** With unit strides and dilation a [VStack] or [HStack] reads the input
    only under its kernel: for [VStack] the [kh] rows ending at row [i-1]
    (type A) or [i] (type B) and the [kw] columns centred at [j]; for
    [HStack] row [i] and the [kernel_len] columns ending at [j-1] (type A)
    or [j] (type B). *)
Theorem masked_conv_window :
  forall ch ksize grp act ub (w : nat -> nat -> nat -> nat -> R) b inch
         kernel_type (x x' : NDArray R) (i j : nat),
    let V := VStack_init ch ksize (1, 1) (1, 1) grp act ub w b inch kernel_type in
    let Hs := HStack_init ch (snd ksize) (1, 1) (1, 1) grp act ub w b inch kernel_type in
    (agree_on (lift (in_window V i j)) x x' ->
     opt_rel (agree_on (fun _ r q => r = i /\ q = j))
       (VStack_hybrid_forward V x) (VStack_hybrid_forward V x')) /\
    (agree_on (lift (in_window Hs i j)) x x' ->
     opt_rel (agree_on (fun _ r q => r = i /\ q = j))
       (HStack_hybrid_forward Hs x) (HStack_hybrid_forward Hs x')).
Proof.
  intros ch ksize grp act ub w b inch kernel_type x x' i j V Hs.
  split; intros Hag.
  - refine (opt_rel_weaken _ _ _ _ _ (VStack_orel _ V _ _ Hag)).
    intros y y' _ _ Hy. apply (agree_on_weaken _ _ _ _ Hy).
    intros c r q _ _ _ [-> ->].
    apply conv_reads_unit; [reflexivity | reflexivity |].
    unfold taps, in_window. intros a k Ha Hk Hp1 Hp2. lia.
  - refine (opt_rel_weaken _ _ _ _ _ (HStack_orel _ Hs _ _ Hag)).
    intros y y' _ _ Hy. apply (agree_on_weaken _ _ _ _ Hy).
    intros c r q _ _ _ [-> ->].
    apply conv_reads_unit; [reflexivity | reflexivity |].
    unfold taps, in_window. intros a k Ha Hk Hp1 Hp2. lia.
Qed.

(** Whatever its strides, dilation and groups, a [VStack] or [HStack] that
    returns at all returns an array of shape (N, channels, H, W) for an
    input of shape (N, C, H, W), holding the top-left H x W block of the
    convolution. *)
Theorem masked_forward_result :
  forall (c : Conv2D R) (x y : NDArray R),
    VStack_hybrid_forward c x = Some y \/ HStack_hybrid_forward c x = Some y ->
    shape y = mkShape (dN (shape x)) (channels c) (dH (shape x)) (dW (shape x)) /\
    data y = conv_data c x.
Proof.
  intros c x y Hy.
  assert (E : VStack_hybrid_forward c x = Some y) by (destruct Hy; assumption).
  split; [exact (VStack_shape_inv _ _ _ E)|].
  unfold VStack_hybrid_forward, Conv2D_hybrid_forward in E.
  apply bind_some in E as (act0 & Ea & Es).
  apply bind_some in Ea as (s & _ & Ea). inversion Ea; subst act0; clear Ea.
  unfold F_slice_like in Es. destruct (_ && _); [|discriminate].
  inversion Es. reflexivity.
Qed.

Lemma pad_read_shift_row (x : NDArray R) (ph pw n c r q : nat) :
  0 < ph -> pad_read x (ph - 1) pw n c r q = pad_read x ph pw n c (S r) q.
Proof.
  intros Hp. unfold pad_read.
  replace (S r - ph) with (r - (ph - 1)) by lia.
  replace (ph <=? S r) with (ph - 1 <=? r); [reflexivity|].
  destruct (Nat.leb_spec (ph - 1) r), (Nat.leb_spec ph (S r)); try reflexivity; lia.
Qed.

Lemma pad_read_shift_col (x : NDArray R) (ph pw n c r q : nat) :
  0 < pw -> pad_read x ph (pw - 1) n c r q = pad_read x ph pw n c r (S q).
Proof.
  intros Hp. unfold pad_read.
  replace (S q - pw) with (q - (pw - 1)) by lia.
  replace (pw <=? S q) with (pw - 1 <=? q); [reflexivity|].
  destruct (Nat.leb_spec (pw - 1) q), (Nat.leb_spec pw (S q)); try reflexivity; lia.
Qed.

(** Type B is type A moved by one pixel: with the same parameters, unit
    strides and dilation, a type-B [VStack] returns at row [i] what the
    type-A [VStack] returns at row [i+1], and a type-B [HStack] returns at
    column [j] what the type-A [HStack] returns at column [j+1]. *)
Theorem type_B_is_shifted_type_A :
  forall ch ksize grp act ub (w : nat -> nat -> nat -> nat -> R) b inch
         kernel_type (x : NDArray R),
    let VA := VStack_init ch ksize (1, 1) (1, 1) grp act ub w b inch "A" in
    let VB := VStack_init ch ksize (1, 1) (1, 1) grp act ub w b inch kernel_type in
    let HA := HStack_init ch (snd ksize) (1, 1) (1, 1) grp act ub w b inch "A" in
    let HB := HStack_init ch (snd ksize) (1, 1) (1, 1) grp act ub w b inch kernel_type in
    is_A kernel_type = false ->
    0 < fst ksize -> 0 < snd ksize ->
    0 < dH (shape x) -> 0 < dW (shape x) -> conv_ok VA (dC (shape x)) ->
    exists va vb ha hb,
      VStack_hybrid_forward VA x = Some va /\ VStack_hybrid_forward VB x = Some vb /\
      HStack_hybrid_forward HA x = Some ha /\ HStack_hybrid_forward HB x = Some hb /\
      (forall n o i j, S i < dH (shape x) -> data vb n o i j = data va n o (S i) j) /\
      (forall n o i j, S j < dW (shape x) -> data hb n o i j = data ha n o i (S j)).
Proof.
  intros ch ksize grp act ub w b inch kernel_type x VA VB HA HB HB' Hkh Hkw HH HW Hok.
  exists (mkND (mkShape (dN (shape x)) ch (dH (shape x)) (dW (shape x))) (conv_data VA x)),
         (mkND (mkShape (dN (shape x)) ch (dH (shape x)) (dW (shape x))) (conv_data VB x)),
         (mkND (mkShape (dN (shape x)) ch (dH (shape x)) (dW (shape x))) (conv_data HA x)),
         (mkND (mkShape (dN (shape x)) ch (dH (shape x)) (dW (shape x))) (conv_data HB x)).
  split; [apply (masked_forward_shape VA); try assumption;
          apply VStack_init_keeps_size; assumption|].
  split; [apply (masked_forward_shape VB); try assumption;
          apply VStack_init_keeps_size; assumption|].
  split; [apply (masked_forward_shape HA); try assumption;
          apply HStack_init_keeps_size; assumption|].
  split; [apply (masked_forward_shape HB); try assumption;
          apply HStack_init_keeps_size; assumption|].
  cbn [data].
  split; intros n o i j _; unfold conv_data, VA, VB, HA, HB, VStack_init, HStack_init;
    cbn [channels kernel_size strides padding dilation groups activation use_bias
         weight bias fst snd];
    rewrite HB'; change (is_A "A") with true; cbn iota;
    destruct act as [a0|], ub;
    repeat match goal with
           | |- apply_activation _ _ = apply_activation _ _ => f_equal
           | |- radd _ _ = radd _ _ => f_equal
           end;
    apply rsum_ext; intros ci _; apply rsum_ext; intros a _;
    apply rsum_ext; intros k _; f_equal.
  all: try (replace (S i * 1 + a * 1) with (S (i * 1 + a * 1)) by lia;
            apply pad_read_shift_row; assumption).
  all: replace (S j * 1 + k * 1) with (S (j * 1 + k * 1)) by lia;
       apply pad_read_shift_col; assumption.
Qed.

(** ** The gated block *)

(** A gated block without residual, with unit strides and dilation and any
    kernel size, keeps the causal order.  If the vertical input agrees on
    the rows above [i] (type A) or up to [i] (type B) and the horizontal
    input on the positions before [(i, j)] (type A) or up to [(i, j)]
    (type B), the vertical output agrees on the rows up to [i] and the
    horizontal output on the positions up to [(i, j)]. *)
Theorem gated_layer_keeps_causal_order :
  forall ch ksize grp ub (p : GatedParams R) inch kernel_type (i j : nat)
         (x x' : NDArray R),
    let L := GatedLayer_init ch ksize (1, 1) (1, 1) grp ub p inch kernel_type false in
    agree_on (cat_pred (dC (shape x) / 2)
                (lift (fun r _ => if is_A kernel_type then r < i else r <= i))
                (lift (if is_A kernel_type then before i j else upto i j))) x x' ->
    opt_rel (agree_on (cat_pred ch (lift (fun r _ => r <= i)) (lift (upto i j))))
      (GatedLayer_hybrid_forward L x) (GatedLayer_hybrid_forward L x').
Proof.
  intros ch ksize grp ub p inch kernel_type i j x x' L Hag.
  refine (opt_rel_weaken _ _ _ _ _
            (GatedLayer_causal ch ksize grp ub p inch kernel_type _ _
               (fun r _ => r <= i) (upto i j) x x' Hag _ _ _)).
  - intros y y' _ _ [_ Hy]. exact Hy.
  - intros r q Hr. unfold taps, GatedLayer_init, VStack_init.
    cbn [gl_vstack kernel_size padding fst snd].
    intros a k Ha Hk Hp1 Hp2. destruct (is_A kernel_type); lia.
  - intros r q Hr. unfold upto in Hr. lia.
  - intros r q Hr. unfold taps, GatedLayer_init, HStack_init.
    cbn [gl_hstack kernel_size padding fst snd].
    intros a k Ha Hk Hp1 Hp2.
    destruct (is_A kernel_type); unfold upto, before in *; lia.
Qed.

(** ** The network *)


(** [net] is strictly causal: two inputs that agree on every position
    strictly before [(i, j)] in row-major order give outputs that agree at
    [(i, j)] and at every position before it.  The output at [(i, j)] does
    not read the input at [(i, j)]. *)
Theorem net_is_causal :
  forall (p : NetParams R) (i j : nat) (x x' : NDArray R),
    agree_on (lift (before i j)) x x' ->
    opt_rel (agree_on (lift (upto i j))) (net p x) (net p x').
Proof. exact net_causal. Qed.

Lemma GatedLayer_B_field (p : GatedParams R) (k i j : nat) (x x' : NDArray R) :
  dC (shape x) = 2 * 16 ->
  agree_on (cat_pred 16 (lift (v_field (S k) i j)) (lift (h_field (S k) i j))) x x' ->
  opt_rel (fun y y' => dC (shape y) = 2 * 16 /\
             agree_on (cat_pred 16 (lift (v_field k i j)) (lift (h_field k i j))) y y')
    (GatedLayer_hybrid_forward (GatedLayer_default 16 (5, 5) "B" false p) x)
    (GatedLayer_hybrid_forward (GatedLayer_default 16 (5, 5) "B" false p) x').
Proof.
  intros Hd Hag. unfold GatedLayer_default.
  apply (GatedLayer_causal 16 (5, 5) 1 true p 0 "B"
           (v_field (S k) i j) (h_field (S k) i j) (v_field k i j) (h_field k i j)).
  - rewrite Hd. exact Hag.
  - intros r q Hr. unfold taps. cbn. intros a b Ha Hb Hp1 Hp2.
    unfold v_field in *. lia.
  - intros r q Hr. unfold v_field, h_field in *. lia.
  - intros r q Hr. unfold taps. cbn. intros a b Ha Hb Hp1 Hp2.
    unfold h_field in *. lia.
Qed.

(** The receptive field of [net] is bounded: its output at [(i, j)] is
    determined by the 25 rows above row [i] (columns [j-32] to [j+12]) and
    by the 25 pixels to the left of [(i, j)] in row [i]. *)
Theorem net_receptive_field :
  forall (p : NetParams R) (i j : nat) (x x' : NDArray R),
    agree_on (lift (net_field i j)) x x' ->
    opt_rel (agree_on (fun _ r q => r = i /\ q = j)) (net p x) (net p x').
Proof.
  intros p i j x x' Hag. unfold net, net_blocks.
  cbn [Sequential_forward Block_forward].
  eapply opt_rel_bind; [apply (Conv2D_orel _ _ _ _ Hag)|].
  intros y0 y0' _ _ H0.
  assert (H0' : agree_on (cat_pred (dC (shape y0) / 2) (lift (net_field i j))
                            (lift (net_field i j))) y0 y0').
  { apply (agree_on_weaken _ _ _ _ H0). intros c r q _ _ _ Hp.
    apply conv_reads_pointwise; [repeat split|].
    unfold cat_pred in Hp. destruct (_ <? _); exact Hp. }
  clear H0.
  eapply opt_rel_bind.
  { unfold GatedLayer_default.
    apply (GatedLayer_causal 16 (5, 5) 1 true (p_gated p 0) 0 "A"
             (net_field i j) (net_field i j) (v_field 5 i j) (h_field 5 i j) _ _ H0').
    - intros r q Hr. unfold taps. cbn. intros a b Ha Hb Hp1 Hp2.
      unfold v_field, net_field in *. lia.
    - intros r q Hr. unfold v_field, h_field in *. lia.
    - intros r q Hr. unfold taps. cbn. intros a b Ha Hb Hp1 Hp2.
      unfold h_field, net_field in *. lia. }
  intros y1 y1' _ _ [D1 H1].
  eapply opt_rel_bind; [apply (GatedLayer_B_field _ 4 i j _ _ D1 H1)|].
  intros y2 y2' _ _ [D2 H2].
  eapply opt_rel_bind; [apply (GatedLayer_B_field _ 3 i j _ _ D2 H2)|].
  intros y3 y3' _ _ [D3 H3].
  eapply opt_rel_bind; [apply (GatedLayer_B_field _ 2 i j _ _ D3 H3)|].
  intros y4 y4' _ _ [D4 H4].
  eapply opt_rel_bind; [apply (GatedLayer_B_field _ 1 i j _ _ D4 H4)|].
  intros y5 y5' _ _ [D5 H5].
  eapply opt_rel_bind; [apply (GatedLayer_B_field _ 0 i j _ _ D5 H5)|].
  intros y6 y6' _ _ [D6 H6].
  assert (H6' : agree_on (lift (fun r q => r = i /\ q = j)) y6 y6').
  { apply (agree_on_weaken _ _ _ _ H6). intros c r q _ _ _ Hp.
    unfold cat_pred, lift, v_field, h_field in *. destruct (_ <? _); lia. }
  eapply opt_rel_bind; [apply (Conv2D_orel _ _ _ _ H6')|].
  intros y y' _ _ Hy. cbn [Sequential_forward opt_rel].
  apply (agree_on_weaken _ _ _ _ Hy).
  intros c r q _ _ _ Hp.
  apply (conv_reads_pointwise _ _ (fun r q => r = i /\ q = j));
    [repeat split | exact Hp].
Qed.

(** ** The completion cell *)

(** A counted loop with an invariant indexed by the counter. *)
Lemma for_each_seq_inv {St : Type} (Inv : nat -> St -> Prop)
  (body : nat -> St -> option St) (len a : nat) (s : St) :
  Inv a s ->
  (forall k u, a <= k < a + len -> Inv k u ->
     exists u', body k u = Some u' /\ Inv (S k) u') ->
  exists s', for_each (seq a len) body s = Some s' /\ Inv (a + len) s'.
Proof.
  intros Ha Hstep.
  destruct (for_each_seq_rel (fun k u v => u = v /\ Inv k u) body len a s s)
    as (s' & _ & Es & _ & _ & Hs); [auto | | eauto].
  intros k u v Hk [<- Hu]. destruct (Hstep k u Hk Hu) as (u' & Eu & Hu').
  exists u', u'. auto.
Qed.

(** One completion step changes the buffer at most at [(i, j)]. *)
Lemma completion_step_agree (f : NDArray R -> option (NDArray R)) (i j a b : nat)
  (u u' : NDArray R) :
  completion_step f i j u = Some u' -> upto i j a b ->
  agree_on (lift (before a b)) u u'.
Proof.
  intros E Hab. destruct (completion_step_frame f i j u u' E) as [Su Du].
  split; [congruence|].
  intros n c r q _ Hp. symmetry. apply Du.
  unfold lift, before in Hp. unfold upto in Hab. lia.
Qed.

(** One row of the completion keeps every completed pixel equal to what
    the network returns there on the current buffer. *)
Lemma completion_row_fixed (f : NDArray R -> option (NDArray R)) (N i : nat)
  (u : NDArray R) :
  (forall r, shape r = mkShape N 1 28 28 ->
             exists out, f r = Some out /\ shape out = mkShape N 1 28 28) ->
  (forall i j r r', agree_on (lift (before i j)) r r' ->
                    opt_rel (agree_on (lift (upto i j))) (f r) (f r')) ->
  i < 28 ->
  shape u = mkShape N 1 28 28 ->
  (forall out, f u = Some out ->
     forall n a b, n < N -> 14 <= a -> a < i -> b < 28 ->
                   data out n 0 a b = data u n 0 a b) ->
  exists u',
    for_each (seq 0 28) (fun j r => completion_step f i j r) u = Some u' /\
    shape u' = mkShape N 1 28 28 /\
    (forall out, f u' = Some out ->
       forall n a b, n < N -> 14 <= a -> a < S i -> b < 28 ->
                     data out n 0 a b = data u' n 0 a b).
Proof.
  intros Hok Hcausal Hi Su Hu.
  destruct (for_each_seq_inv
              (fun j a => shape a = mkShape N 1 28 28 /\
                 forall out, f a = Some out ->
                   forall n r q, n < N -> 14 <= r -> before i j r q -> q < 28 ->
                                 data out n 0 r q = data a n 0 r q)
              (fun j r => completion_step f i j r) 28 0 u)
    as (u' & Eu & Su' & Hu').
  - split; [exact Su|]. intros out Eo n r q Hn Hr Hb Hq.
    apply (Hu out Eo); try assumption. unfold before in Hb. lia.
  - intros j w [_ Hj] [Sw Hw]. cbn in Hj.
    clear Su Hu. clear u. rename w into u, Sw into Su, Hw into Hu.
    destruct (Hok u Su) as (out & Eo & So).
    pose proof (completion_step_ok f i j u out Eo) as Estep.
    rewrite So, Su in Estep. cbn [dN dC dH dW] in Estep.
    specialize (Estep eq_refl ltac:(lia) Hi Hj ltac:(lia) Hi Hj).
    eexists. split; [exact Estep|].
    cbn [shape]. split; [reflexivity|].
    intros out' Eo' n r q Hn Hr Hb Hq.
    assert (Hr28 : r < 28) by (unfold before in Hb; lia).
    assert (K : data out' n 0 r q = data out n 0 r q).
    { assert (Hup : upto i j r q) by (unfold upto, before in *; lia).
      pose proof (Hcausal r q _ _ (completion_step_agree f i j r q _ _ Estep Hup)) as Hc.
      rewrite Eo, Eo' in Hc. cbn [opt_rel] in Hc. destruct Hc as [_ Hd].
      symmetry. apply Hd.
      - rewrite So. repeat split; cbn [dN dC dH dW]; lia.
      - unfold lift, upto. lia. }
    rewrite K. cbn [data].
    destruct ((0 =? 0) && (r =? i) && (q =? j)) eqn:Hb'.
    + apply andb_prop in Hb' as [Hb' H3]. apply andb_prop in Hb' as [_ H2].
      apply Nat.eqb_eq in H2. apply Nat.eqb_eq in H3. subst. reflexivity.
    + apply (Hu out Eo); try assumption.
      cbn [Nat.eqb andb] in Hb'.
      apply andb_false_iff in Hb' as [Hb' | Hb']; apply Nat.eqb_neq in Hb';
        unfold before in *; lia.
  - exists u'. split; [exact Eu|]. split; [exact Su'|].
    intros out Eo n a b Hn Ha Hlt Hb.
    apply (Hu' out Eo); try assumption. unfold before. lia.
Qed.

Lemma completion_fixed (f : NDArray R -> option (NDArray R)) (N : nat) (x : NDArray R) :
  (forall r, shape r = mkShape N 1 28 28 ->
             exists out, f r = Some out /\ shape out = mkShape N 1 28 28) ->
  (forall i j r r', agree_on (lift (before i j)) r r' ->
                    opt_rel (agree_on (lift (upto i j))) (f r) (f r')) ->
  shape x = mkShape N 1 28 28 ->
  exists r out,
    completion f x = Some r /\ shape r = mkShape N 1 28 28 /\
    f r = Some out /\ shape out = mkShape N 1 28 28 /\
    forall n i j, n < N -> 14 <= i -> i < 28 -> j < 28 ->
                  data out n 0 i j = data r n 0 i j.
Proof.
  intros Hok Hcausal Sx. unfold completion.
  change (range 14 28) with (seq 14 14). change (range 0 28) with (seq 0 28).
  destruct (for_each_seq_inv
              (fun i a => shape a = mkShape N 1 28 28 /\
                 forall out, f a = Some out ->
                   forall n r q, n < N -> 14 <= r -> r < i -> q < 28 ->
                                 data out n 0 r q = data a n 0 r q)
              (fun i r => for_each (seq 0 28)
                            (fun j r' => completion_step f i j r') r) 14 14 x)
    as (r & Er & Sr & Hr).
  - split; [exact Sx|]. intros; lia.
  - intros i u Hi [Su Hu].
    destruct (completion_row_fixed f N i u Hok Hcausal ltac:(lia) Su Hu)
      as (u' & Eu & Su' & Hu').
    exists u'. auto.
  - destruct (Hok r Sr) as (out & Eo & So).
    exists r, out. repeat (split; [assumption|]).
    intros n i j Hn Hi Hi' Hj. apply (Hr out Eo); assumption.
Qed.

(** The completed lower half is a fixed point of the network: on the
    buffer the completion returns, [net] returns at every lower-half pixel
    the value the buffer holds there. *)
Theorem completion_is_fixed_point :
  forall (p : NetParams R) (N : nat) (x : NDArray R),
    shape x = mkShape N 1 28 28 ->
    exists r out,
      completion (net p) x = Some r /\ net p r = Some out /\
      forall n i j, n < N -> 14 <= i -> i < 28 -> j < 28 ->
                    data out n 0 i j = data r n 0 i j.
Proof.
  intros p N x Sx.
  destruct (completion_fixed (net p) N x) as (r & out & Er & _ & Eo & _ & Hr).
  - intros r Sr. apply (net_ok p r N 1 28 28 Sr); lia.
  - intros i j r r'. apply net_causal.
  - exact Sx.
  - exists r, out. auto.
Qed.

(** Completing a completed buffer changes nothing. *)
Theorem completion_is_idempotent :
  forall (p : NetParams R) (N : nat) (x : NDArray R),
    shape x = mkShape N 1 28 28 ->
    exists r r',
      completion (net p) x = Some r /\ completion (net p) r = Some r' /\
      nd_eq r' r.
Proof.
  intros p N x Sx.
  assert (Hok : forall r, shape r = mkShape N 1 28 28 ->
                  exists out, net p r = Some out /\ shape out = mkShape N 1 28 28)
    by (intros r Sr; apply (net_ok p r N 1 28 28 Sr); lia).
  destruct (completion_fixed (net p) N x Hok (net_causal p) Sx)
    as (r & out & Er & Sr & Eo & So & Hr).
  exists r. unfold completion at 2.
  change (range 14 28) with (seq 14 14). change (range 0 28) with (seq 0 28).
  assert (Hstep : forall i j u, 14 <= i < 28 -> j < 28 ->
            shape u = mkShape N 1 28 28 /\ nd_eq u r ->
            exists u', completion_step (net p) i j u = Some u' /\
                       shape u' = mkShape N 1 28 28 /\ nd_eq u' r).
  { intros i j u Hi Hj [Su Hu].
    destruct (Hok u Su) as (ou & Eou & Sou).
    assert (Hb : agree_on (lift (before i j)) u r)
      by (apply (agree_on_weaken _ _ _ _ Hu); intros; exact I).
    pose proof (net_causal p i j u r Hb) as Hc.
    rewrite Eou, Eo in Hc. cbn [opt_rel] in Hc. destruct Hc as [_ Hd].
    pose proof (completion_step_ok (net p) i j u ou Eou) as Estep.
    rewrite Sou, Su in Estep. cbn [dN dC dH dW] in Estep.
    specialize (Estep eq_refl ltac:(lia) ltac:(lia) Hj ltac:(lia) ltac:(lia) Hj).
    eexists. split; [exact Estep|]. cbn [shape]. split; [reflexivity|].
    split; [cbn [shape]; congruence|]. cbn [shape data].
    intros n c a b (Hn & Hc & Ha & Hb') _. cbn [dN dC dH dW] in Hn, Hc, Ha, Hb'.
    destruct ((c =? 0) && (a =? i) && (b =? j)) eqn:Hcond.
    - apply andb_prop in Hcond as [Hcond H3]. apply andb_prop in Hcond as [H1 H2].
      apply Nat.eqb_eq in H1. apply Nat.eqb_eq in H2. apply Nat.eqb_eq in H3. subst.
      rewrite Hd.
      + apply Hr; lia.
      + rewrite Sou. repeat split; cbn [dN dC dH dW]; lia.
      + unfold lift, upto. lia.
    - destruct Hu as [_ Hu]. apply Hu; [|exact I].
      rewrite Su. repeat split; cbn [dN dC dH dW]; assumption. }
  destruct (for_each_seq_inv
              (fun _ a => shape a = mkShape N 1 28 28 /\ nd_eq a r)
              (fun i u => for_each (seq 0 28)
                            (fun j u' => completion_step (net p) i j u') u) 14 14 r)
    as (r' & Er' & _ & Hr').
  - split; [exact Sr | apply agree_on_refl].
  - intros i u Hi Hu.
    destruct (for_each_seq_inv
                (fun _ a => shape a = mkShape N 1 28 28 /\ nd_eq a r)
                (fun j u' => completion_step (net p) i j u') 28 0 u)
      as (u' & Eu' & Hu'); [exact Hu | | exists u'; auto].
    intros j w Hj Hw. cbn in Hj.
    destruct (Hstep i j w Hi ltac:(lia) Hw) as (w' & Ew & Hw').
    exists w'. auto.
  - exists r'. auto.
Qed.

(** The completion raises on a buffer without channels or smaller than
    28x28, whatever the network does. *)
Theorem completion_needs_28x28 :
  forall (f : NDArray R -> option (NDArray R)) (x : NDArray R),
    dC (shape x) = 0 \/ dH (shape x) < 28 \/ dW (shape x) < 28 ->
    completion f x = None.
Proof.
  intros f x Hsmall. destruct (completion f x) as [r|] eqn:E; [|reflexivity].
  exfalso. unfold completion in E.
  change (range 14 28) with (seq 14 13 ++ [27]) in E.
  change (range 0 28) with (seq 0 27 ++ [27]) in E.
  rewrite for_each_app in E. apply bind_some in E as (u & Eu & E).
  cbn [for_each] in E. apply bind_some in E as (u1 & E & _).
  rewrite for_each_app in E. apply bind_some in E as (w & Ew & E).
  cbn [for_each] in E. apply bind_some in E as (w1 & E & _).
  assert (Sw : shape w = shape x).
  { transitivity (shape u).
    - revert Ew. apply (for_each_frame (fun a b => shape b = shape a));
        [reflexivity | intros; congruence |].
      intros j a b _ Ea. apply (completion_step_frame f 27 j a b Ea).
    - revert Eu. apply (for_each_frame (fun a b => shape b = shape a));
        [reflexivity | intros; congruence |].
      intros i a b _.
      apply (for_each_frame (fun a b => shape b = shape a));
        [reflexivity | intros; congruence |].
      intros j a' b' _ Ea. apply (completion_step_frame f i j a' b' Ea). }
  unfold completion_step in E.
  apply bind_some in E as (out & _ & E). apply bind_some in E as (v & _ & E).
  unfold setitem in E. destruct (_ && _) eqn:Hc in E; [|discriminate].
  apply andb_prop in Hc as [Hc _]. apply andb_prop in Hc as [Hc H3].
  apply andb_prop in Hc as [H1 H2].
  apply Nat.ltb_lt in H1. apply Nat.ltb_lt in H2. apply Nat.ltb_lt in H3.
  rewrite Sw in H1, H2, H3. lia.
Qed.

(** The cell completes the second batch of the loader (index 1); a loader
    of one batch gives that batch, and an empty loader makes the cell
    raise. *)
Theorem completion_cell_batch :
  forall (B : Type) (f : NDArray R -> option (NDArray R))
         (test_loader : list (NDArray R * B)),
    completion_cell f test_loader =
    match nth_error test_loader (Nat.min 1 (List.length test_loader - 1)) with
    | Some (x, _) => completion f x
    | None => None
    end.
Proof.
  intros B f test_loader. unfold completion_cell.
  destruct test_loader as [|[x0 l0] [|[x1 l1] rest]]; reflexivity.
Qed.

(** ** What a gated block rejects *)

Lemma conv_shape_in_channels (c : Conv2D R) (s t : Shape) :
  conv_shape c s = Some t -> in_channels c = 0 \/ in_channels c = dC s.
Proof.
  unfold conv_shape. intros E.
  destruct (_ && _) eqn:Hc in E; [|discriminate].
  apply andb_prop in Hc as [_ Hc]. apply orb_prop in Hc as [Hc | Hc];
    apply Nat.eqb_eq in Hc; auto.
Qed.

Lemma Conv2D_forward_inv (c : Conv2D R) (x y : NDArray R) :
  Conv2D_hybrid_forward c x = Some y -> conv_shape c (shape x) = Some (shape y).
Proof.
  unfold Conv2D_hybrid_forward. intros E.
  apply bind_some in E as (s & Es & E). inversion E. exact Es.
Qed.

Lemma VStack_forward_conv (c : Conv2D R) (x y : NDArray R) :
  VStack_hybrid_forward c x = Some y ->
  exists t, conv_shape c (shape x) = Some t.
Proof.
  unfold VStack_hybrid_forward. intros E.
  apply bind_some in E as (a & Ea & _). apply Conv2D_forward_inv in Ea. eauto.
Qed.

(** The steps of a successful forward pass of a gated block. *)
Lemma GatedLayer_forward_inv (self : GatedLayer R) (x y : NDArray R) :
  GatedLayer_hybrid_forward self x = Some y ->
  exists vx hx v hs vh h vs vt hsig htan vout gated pre ho,
    F_split x = Some (vx, hx) /\
    VStack_hybrid_forward (gl_vstack self) vx = Some v /\
    HStack_hybrid_forward (gl_hstack self) hx = Some hs /\
    Conv2D_hybrid_forward (gl_vtoh self) v = Some vh /\
    nd_add hs vh = Some h /\
    F_split v = Some (vs, vt) /\ F_split h = Some (hsig, htan) /\
    nd_mul (F_sigmoid vs) (F_tanh vt) = Some vout /\
    nd_mul (F_sigmoid hsig) (F_tanh htan) = Some gated /\
    Conv2D_hybrid_forward (gl_htoh self) gated = Some pre /\
    residual_connection self hx pre = Some ho /\
    F_concat vout ho = Some y.
Proof.
  unfold GatedLayer_hybrid_forward. intros E.
  apply bind_some in E as ([vx hx] & E1 & E).
  apply bind_some in E as (v & E2 & E). apply bind_some in E as (hs & E3 & E).
  apply bind_some in E as (vh & E4 & E). apply bind_some in E as (h & E5 & E).
  apply bind_some in E as ([vs vt] & E6 & E).
  apply bind_some in E as ([hsig htan] & E7 & E).
  apply bind_some in E as (vout & E8 & E). apply bind_some in E as (gated & E9 & E).
  apply bind_some in E as (pre & E10 & E). apply bind_some in E as (ho & E11 & E).
  exists vx, hx, v, hs, vh, h, vs, vt, hsig, htan, vout, gated, pre, ho.
  repeat (split; [assumption|]). exact E.
Qed.

(** A gated block raises on an odd number of input channels, and on an
    input whose channel count is not twice a declared [in_channels]: the
    declared count is that of each stream, not of the input. *)
Theorem gated_layer_rejects_channels :
  forall ch ksize str dil grp ub (p : GatedParams R) inch kernel_type residual
         (x : NDArray R),
    dC (shape x) mod 2 <> 0 \/ (inch <> 0 /\ dC (shape x) <> 2 * inch) ->
    GatedLayer_hybrid_forward
      (GatedLayer_init ch ksize str dil grp ub p inch kernel_type residual) x = None.
Proof.
  intros ch ksize str dil grp ub p inch kernel_type residual x Hbad.
  destruct (GatedLayer_hybrid_forward _ x) as [y|] eqn:E; [|reflexivity].
  exfalso.
  apply GatedLayer_forward_inv in E
    as (vx & hx & v & hs & vh & h & vs & vt & hsig & htan & vout & gated & pre & ho &
        E1 & E2 & _).
  destruct (split_shape_inv _ _ _ E1) as (Svx & _ & Heven).
  destruct Hbad as [Hodd | [Hin Hne]].
  - apply Hodd. rewrite Heven, Nat.mul_comm. apply Nat.Div0.mod_mul.
  - apply VStack_forward_conv in E2 as (t & Et).
    apply conv_shape_in_channels in Et. rewrite Svx in Et.
    cbn [GatedLayer_init gl_vstack VStack_init in_channels dC] in Et. lia.
Qed.

Lemma conv_out_dim_strided (d d' s : nat) :
  conv_out_dim d 0 1 1 s = Some d' -> d' = (d - 1) / s + 1.
Proof.
  unfold conv_out_dim. destruct (_ && _); [|discriminate].
  intros E. inversion E. f_equal. f_equal. lia.
Qed.

Lemma bdim_cases (a b c : nat) : bdim a b = Some c -> c = a \/ (a = 1 /\ c = b).
Proof.
  unfold bdim. destruct (a =? b) eqn:E1; [intros E; inversion E; auto|].
  destruct (a =? 1) eqn:E2.
  - apply Nat.eqb_eq in E2. intros E; inversion E; auto.
  - destruct (b =? 1); [intros E; inversion E; auto | discriminate].
Qed.

Lemma strided_dim_shrinks (d s : nat) : 2 <= s -> 2 <= d -> (d - 1) / s + 1 < d.
Proof.
  intros Hs Hd.
  assert ((d - 1) / s < d - 1); [|lia].
  apply Nat.Div0.div_lt_upper_bound. nia.
Qed.

(** The extent of the horizontal result along one axis, for a stride [s]
    on that axis: the two 1x1 convolutions apply the stride, the masked
    convolutions crop back to the input. *)
Lemma strided_axis (d dvh dh dpre s : nat) :
  conv_out_dim d 0 1 1 s = Some dvh -> bdim d dvh = Some dh ->
  conv_out_dim dh 0 1 1 s = Some dpre -> dpre = d -> 2 <= s -> 2 <= d -> False.
Proof.
  intros E1 E2 E3 E4 Hs Hd.
  apply conv_out_dim_strided in E1. apply conv_out_dim_strided in E3.
  apply bdim_cases in E2 as [-> | [-> _]]; [|lia].
  pose proof (strided_dim_shrinks d s Hs Hd). lia.
Qed.

(** A gated block without residual and with a stride larger than 1 raises
    on every input that is longer than one pixel along the strided axis:
    the 1x1 convolutions shrink the horizontal stream, the vertical stream
    keeps the input size, and the final concatenation cannot join them. *)
Theorem strided_gated_layer_fails :
  forall ch ksize str dil grp ub (p : GatedParams R) inch kernel_type (x : NDArray R),
    (2 <= fst str /\ 2 <= dH (shape x)) \/ (2 <= snd str /\ 2 <= dW (shape x)) ->
    GatedLayer_hybrid_forward
      (GatedLayer_init ch ksize str dil grp ub p inch kernel_type false) x = None.
Proof.
  intros ch ksize str dil grp ub p inch kernel_type x Hbad.
  set (L := GatedLayer_init ch ksize str dil grp ub p inch kernel_type false).
  destruct (GatedLayer_hybrid_forward L x) as [y|] eqn:E; [|reflexivity].
  exfalso.
  apply GatedLayer_forward_inv in E
    as (vx & hx & v & hs & vh & h & vs & vt & hsig & htan & vout & gated & pre & ho &
        E1 & E2 & E3 & E4 & E5 & E6 & E7 & E8 & E9 & E10 & E11 & E12).
  destruct (split_shape_inv _ _ _ E1) as (Svx & Shx & _).
  pose proof (VStack_shape_inv _ _ _ E2) as Sv.
  pose proof (VStack_shape_inv _ _ _ E3) as Shs.
  rewrite Svx in Sv. rewrite Shx in Shs. cbn [dN dH dW] in Sv, Shs.
  apply Conv2D_forward_inv in E4. apply conv_shape_inv in E4
    as (_ & _ & _ & _ & _ & Hvh & Wvh).
  apply Conv2D_forward_inv in E10. apply conv_shape_inv in E10
    as (_ & _ & _ & _ & _ & Hpre & Wpre).
  cbn [L GatedLayer_init gl_vtoh gl_htoh padding kernel_size dilation strides fst snd]
    in Hvh, Wvh, Hpre, Wpre.
  unfold nd_add, broadcast in E5. apply bind_some in E5 as (u & Eu & E5).
  inversion E5; subst h; clear E5.
  apply bshape_inv in Eu as (_ & _ & Hh & Wh).
  destruct (split_shape_inv _ _ _ E6) as (Svs & Svt & _).
  destruct (split_shape_inv _ _ _ E7) as (Shsig & Shtan & _).
  cbn [shape] in Shsig, Shtan.
  pose proof (broadcast_shape_same rmul (F_sigmoid vs) (F_tanh vt) vout
                ltac:(unfold F_sigmoid, F_tanh, map_nd; cbn [shape]; congruence) E8)
    as Svout.
  pose proof (broadcast_shape_same rmul (F_sigmoid hsig) (F_tanh htan) gated
                ltac:(unfold F_sigmoid, F_tanh, map_nd; cbn [shape]; congruence) E9)
    as Sgated.
  unfold F_sigmoid, map_nd in Svout, Sgated. cbn [shape] in Svout, Sgated.
  assert (ho = pre) as ->
    by (unfold residual_connection in E11; cbn in E11; congruence).
  unfold F_concat in E12. destruct (_ && _) eqn:Hc in E12; [|discriminate].
  apply andb_prop in Hc as [Hc HW]. apply andb_prop in Hc as [_ HH].
  apply Nat.eqb_eq in HH. apply Nat.eqb_eq in HW.
  rewrite Svout, Svs, Sv in HH, HW. cbn [dH dW] in HH, HW.
  rewrite Sgated, Shsig in Hpre, Wpre. cbn [dH dW] in Hpre, Wpre.
  rewrite Sv in Hvh, Wvh. rewrite Shs in Hh, Wh. cbn [dH dW] in *.
  destruct Hbad as [[Hs Hd] | [Hs Hd]].
  - exact (strided_axis _ _ _ _ _ Hvh Hh Hpre (eq_sym HH) Hs Hd).
  - exact (strided_axis _ _ _ _ _ Wvh Wh Wpre (eq_sym HW) Hs Hd).
Qed.

(** ** One image of a batch *)

Lemma take_image_conv (c : Conv2D R) (n : nat) (x : NDArray R) :
  Conv2D_hybrid_forward c (take_image n x) =
  option_map (take_image n) (Conv2D_hybrid_forward c x).
Proof.
  unfold Conv2D_hybrid_forward, conv_shape, take_image. cbn [shape dN dC dH dW].
  destruct (_ && _); cbn [bind option_map]; [|reflexivity].
  destruct (conv_out_dim (dH (shape x)) _ _ _ _); cbn [bind option_map]; [|reflexivity].
  destruct (conv_out_dim (dW (shape x)) _ _ _ _); cbn [bind option_map]; reflexivity.
Qed.

Lemma take_image_vstack (c : Conv2D R) (n : nat) (x : NDArray R) :
  VStack_hybrid_forward c (take_image n x) =
  option_map (take_image n) (VStack_hybrid_forward c x).
Proof.
  unfold VStack_hybrid_forward. rewrite take_image_conv.
  destruct (Conv2D_hybrid_forward c x) as [a|]; cbn [bind option_map]; [|reflexivity].
  unfold F_slice_like, take_image. cbn [shape dN dC dH dW].
  destruct (_ && _); reflexivity.
Qed.

Lemma Conv2D_nd_eq (c : Conv2D R) (a a' : NDArray R) :
  nd_eq a a' ->
  opt_rel nd_eq (Conv2D_hybrid_forward c a) (Conv2D_hybrid_forward c a').
Proof.
  intros Ha. refine (opt_rel_weaken _ _ _ _ _ (Conv2D_orel _ c _ _ Ha)).
  intros y y' _ _ Hy. apply (agree_on_weaken _ _ _ _ Hy).
  intros c0 i j _ _ _ _. unfold conv_reads. intros; exact I.
Qed.

Lemma VStack_nd_eq (c : Conv2D R) (a a' : NDArray R) :
  nd_eq a a' ->
  opt_rel nd_eq (VStack_hybrid_forward c a) (VStack_hybrid_forward c a').
Proof.
  intros Ha. refine (opt_rel_weaken _ _ _ _ _ (VStack_orel _ c _ _ Ha)).
  intros y y' _ _ Hy. apply (agree_on_weaken _ _ _ _ Hy).
  intros c0 i j _ _ _ _. unfold conv_reads. intros; exact I.
Qed.

(** An operator that respects element-wise equality, commutes with taking
    one image and keeps the batch size maps image [n] of a batch to image
    [n] of its result. *)
Lemma image_unary (f : NDArray R -> option (NDArray R)) (N n : nat) :
  (forall a a', nd_eq a a' -> opt_rel nd_eq (f a) (f a')) ->
  (forall x, f (take_image n x) = option_map (take_image n) (f x)) ->
  (forall x y, f x = Some y -> dN (shape y) = dN (shape x)) ->
  forall a ab, image_of N n a ab -> opt_rel (image_of N n) (f a) (f ab).
Proof.
  intros Hresp Hcomm HN a ab [Hb Ha].
  pose proof (Hresp _ _ Ha) as Hr. rewrite Hcomm in Hr.
  destruct (f ab) as [yb|] eqn:Eb; cbn [option_map] in Hr.
  - destruct (f a) as [y|]; cbn [opt_rel] in *; [|contradiction].
    split; [rewrite (HN _ _ Eb); exact Hb | exact Hr].
  - destruct (f a); cbn [opt_rel] in *; [contradiction | exact I].
Qed.

Lemma Conv2D_image (c : Conv2D R) (N n : nat) (a ab : NDArray R) :
  image_of N n a ab ->
  opt_rel (image_of N n) (Conv2D_hybrid_forward c a) (Conv2D_hybrid_forward c ab).
Proof.
  apply (image_unary (Conv2D_hybrid_forward c)).
  - apply Conv2D_nd_eq.
  - apply take_image_conv.
  - intros x y E. apply Conv2D_forward_inv in E. apply conv_shape_inv in E. tauto.
Qed.

Lemma VStack_image (c : Conv2D R) (N n : nat) (a ab : NDArray R) :
  image_of N n a ab ->
  opt_rel (image_of N n) (VStack_hybrid_forward c a) (VStack_hybrid_forward c ab).
Proof.
  apply (image_unary (VStack_hybrid_forward c)).
  - apply VStack_nd_eq.
  - apply take_image_vstack.
  - intros x y E. rewrite (VStack_shape_inv _ _ _ E). reflexivity.
Qed.

Lemma HStack_image (c : Conv2D R) (N n : nat) (a ab : NDArray R) :
  image_of N n a ab ->
  opt_rel (image_of N n) (HStack_hybrid_forward c a) (HStack_hybrid_forward c ab).
Proof. exact (VStack_image c N n a ab). Qed.

Lemma split_image (N n : nat) (x xb : NDArray R) :
  image_of N n x xb ->
  opt_rel (pair_rel (image_of N n) (image_of N n)) (F_split x) (F_split xb).
Proof.
  intros [Hb Hx].
  pose proof (split_orel _ _ _ Hx) as Hs.
  assert (Hc : F_split (take_image n xb) =
               option_map (fun ab => (take_image n (fst ab), take_image n (snd ab)))
                          (F_split xb)).
  { unfold F_split, take_image. cbn [shape dN dC dH dW].
    destruct (_ =? 0); reflexivity. }
  rewrite Hc in Hs.
  destruct (F_split xb) as [[ab bb]|] eqn:Eb; cbn [option_map fst snd] in Hs.
  - destruct (F_split x) as [[a b]|]; cbn [opt_rel] in *; [|contradiction].
    destruct Hs as [H1 H2]. cbn [fst snd] in H1, H2.
    destruct (split_shape_inv _ _ _ Eb) as (Sa & Sb & _).
    split; cbn [fst snd]; (split; [rewrite ?Sa, ?Sb; exact Hb|]).
    + exact H1.
    + apply (agree_on_weaken _ _ _ _ H2). intros; exact I.
  - destruct (F_split x) as [[a b]|]; cbn [opt_rel] in *; [contradiction | exact I].
Qed.

Lemma map_image (f : R -> R) (N n : nat) (a ab : NDArray R) :
  image_of N n a ab -> image_of N n (map_nd f a) (map_nd f ab).
Proof.
  intros [Hb Ha]. split; [exact Hb|]. exact (map_rel f _ _ _ Ha).
Qed.

Lemma broadcast_image (f : R -> R -> R) (N n : nat) (a ab b bb : NDArray R) :
  n < N -> image_of N n a ab -> image_of N n b bb ->
  opt_rel (image_of N n) (broadcast f a b) (broadcast f ab bb).
Proof.
  intros Hn [Hab [Sa Da]] [Hbb [Sb Db]].
  unfold take_image in Sa, Sb, Da, Db. cbn [shape data] in Sa, Sb, Da, Db.
  rewrite Sa in Da. rewrite Sb in Db.
  unfold broadcast, bshape. rewrite Sa, Sb. cbn [dN dC dH dW].
  rewrite Hab, Hbb, !bdim_same. cbn [bind].
  destruct (bdim (dC (shape ab)) (dC (shape bb))) as [c0|] eqn:Ec;
    cbn [bind]; [|exact I].
  destruct (bdim (dH (shape ab)) (dH (shape bb))) as [h0|] eqn:Eh;
    cbn [bind]; [|exact I].
  destruct (bdim (dW (shape ab)) (dW (shape bb))) as [w0|] eqn:Ew;
    cbn [bind opt_rel]; [|exact I].
  split; [reflexivity|]. split; [reflexivity|].
  cbn [shape data take_image]. unfold take_image. cbn [data].
  intros m c i j (Hm & Hc & Hi & Hj) _. cbn [dN dC dH dW] in Hm, Hc, Hi, Hj.
  rewrite (bidx_same N n Hn).
  assert (m = 0) as -> by lia. cbn [bidx Nat.eqb].
  destruct (bdim_bidx _ _ _ c Ec Hc), (bdim_bidx _ _ _ i Eh Hi),
           (bdim_bidx _ _ _ j Ew Hj).
  f_equal; [apply Da | apply Db]; try exact I;
    repeat split; cbn [dN dC dH dW]; try assumption; lia.
Qed.

Lemma concat_image (N n : nat) (a ab b bb : NDArray R) :
  image_of N n a ab -> image_of N n b bb ->
  opt_rel (image_of N n) (F_concat a b) (F_concat ab bb).
Proof.
  intros [Hab Ha] [Hbb Hb].
  pose proof (concat_orel _ _ _ _ _ _ Ha Hb) as Hc.
  assert (Hcomm : F_concat (take_image n ab) (take_image n bb) =
                  option_map (take_image n) (F_concat ab bb)).
  { unfold F_concat, take_image. cbn [shape dN dC dH dW].
    rewrite Hab, Hbb, !Nat.eqb_refl. cbn [andb].
    destruct (_ && _); reflexivity. }
  rewrite Hcomm in Hc.
  destruct (F_concat ab bb) as [yb|] eqn:Eb; cbn [option_map] in Hc.
  - destruct (F_concat a b) as [y|]; cbn [opt_rel] in *; [|contradiction].
    split.
    + unfold F_concat in Eb. destruct (_ && _); [|discriminate].
      inversion Eb. cbn [shape dN]. exact Hab.
    + apply (agree_on_weaken _ _ _ _ Hc). intros c i j _ _ _ _.
      unfold cat_pred. destruct (_ <? _); exact I.
  - destruct (F_concat a b); cbn [opt_rel] in *; [contradiction | exact I].
Qed.

Lemma residual_image (self : GatedLayer R) (N n : nat) (hx hxb pre preb : NDArray R) :
  n < N -> image_of N n hx hxb -> image_of N n pre preb ->
  opt_rel (image_of N n)
    (residual_connection self hx pre) (residual_connection self hxb preb).
Proof.
  intros Hn Hx Hp. unfold residual_connection.
  assert (Ec : dC (shape hx) = dC (shape hxb)).
  { destruct Hx as [_ [Sx _]]. rewrite Sx. reflexivity. }
  destruct (negb (gl_residual self)); [exact Hp|].
  rewrite Ec. destruct (_ <? _).
  - eapply opt_rel_bind.
    + apply (concat_image N n); [exact Hx|].
      destruct Hx as [Hb [Sx _]]. split; [exact Hb|].
      split; [|intros; reflexivity].
      unfold F_zeros, take_image. cbn [shape]. rewrite Sx. reflexivity.
    + intros y yb _ _ Hy. apply broadcast_image; assumption.
  - apply broadcast_image; assumption.
Qed.

Lemma GatedLayer_image (self : GatedLayer R) (N n : nat) (x xb : NDArray R) :
  n < N -> image_of N n x xb ->
  opt_rel (image_of N n)
    (GatedLayer_hybrid_forward self x) (GatedLayer_hybrid_forward self xb).
Proof.
  intros Hn Hx. unfold GatedLayer_hybrid_forward.
  eapply opt_rel_bind; [apply (split_image N n _ _ Hx)|].
  intros [vx hx] [vxb hxb] _ _ [Hv Hh]. cbn [fst snd] in Hv, Hh. cbn beta iota.
  eapply opt_rel_bind; [apply (VStack_image _ N n _ _ Hv)|].
  intros v vb _ _ Hv2.
  eapply opt_rel_bind; [apply (HStack_image _ N n _ _ Hh)|].
  intros hs hsb _ _ Hhs.
  eapply opt_rel_bind; [apply (Conv2D_image _ N n _ _ Hv2)|].
  intros vh vhb _ _ Hvh.
  eapply opt_rel_bind; [apply (broadcast_image radd N n _ _ _ _ Hn Hhs Hvh)|].
  intros h hb _ _ Hh2.
  eapply opt_rel_bind; [apply (split_image N n _ _ Hv2)|].
  intros [vs vt] [vsb vtb] _ _ [Hvs Hvt]. cbn [fst snd] in Hvs, Hvt. cbn beta iota.
  eapply opt_rel_bind; [apply (split_image N n _ _ Hh2)|].
  intros [hsig htan] [hsigb htanb] _ _ [Hs1 Hs2]. cbn [fst snd] in Hs1, Hs2.
  cbn beta iota.
  eapply opt_rel_bind.
  { apply (broadcast_image rmul N n _ _ _ _ Hn
             (map_image s_sigmoid N n _ _ Hvs) (map_image s_tanh N n _ _ Hvt)). }
  intros vout voutb _ _ Hvout.
  eapply opt_rel_bind.
  { apply (broadcast_image rmul N n _ _ _ _ Hn
             (map_image s_sigmoid N n _ _ Hs1) (map_image s_tanh N n _ _ Hs2)). }
  intros gated gatedb _ _ Hg.
  eapply opt_rel_bind; [apply (Conv2D_image _ N n _ _ Hg)|].
  intros pre preb _ _ Hpre.
  eapply opt_rel_bind; [apply (residual_image self N n _ _ _ _ Hn Hh Hpre)|].
  intros ho hob _ _ Hho.
  apply concat_image; assumption.
Qed.

Lemma Sequential_image (blocks : list (Block R)) (N n : nat) (x xb : NDArray R) :
  n < N -> image_of N n x xb ->
  opt_rel (image_of N n) (Sequential_forward blocks x) (Sequential_forward blocks xb).
Proof.
  intros Hn. revert x xb.
  induction blocks as [|b rest IH]; intros x xb Hx; cbn [Sequential_forward].
  - exact Hx.
  - eapply opt_rel_bind; [|intros y yb _ _ Hy; apply IH; exact Hy].
    destruct b as [c|g]; cbn [Block_forward].
    + apply Conv2D_image; exact Hx.
    + apply GatedLayer_image; assumption.
Qed.

(** Every sequential stack of convolutions and gated blocks, [net] among
    them, treats the images of a batch independently: its result on image
    [n] alone is image [n] of its result on the batch, and it raises on
    the one exactly when it raises on the other. *)
Theorem sequential_per_image :
  forall (blocks : list (Block R)) (x : NDArray R) (n : nat),
    n < dN (shape x) ->
    opt_rel (fun y yb => nd_eq y (take_image n yb))
      (Sequential_forward blocks (take_image n x)) (Sequential_forward blocks x).
Proof.
  intros blocks x n Hn.
  refine (opt_rel_weaken _ _ _ _ _
            (Sequential_image blocks (dN (shape x)) n (take_image n x) x Hn _)).
  - intros y yb _ _ [_ Hy]. exact Hy.
  - split; [reflexivity | apply agree_on_refl].
Qed.

(** The loss of image [n] of a batch is the loss of that image alone. *)
Theorem loss_per_image :
  forall (blocks : list (Block R)) (x : NDArray R) (n : nat),
    n < dN (shape x) ->
    opt_rel (fun l1 l => vlen l1 = 1 /\ vlen l = dN (shape x) /\
                         vdata l1 0 = vdata l n)
      (loss (Sequential_forward blocks) (take_image n x))
      (loss (Sequential_forward blocks) x).
Proof.
  intros blocks x n Hn. unfold loss.
  assert (Hx : image_of (dN (shape x)) n (take_image n x) x)
    by (split; [reflexivity | apply agree_on_refl]).
  eapply opt_rel_bind; [apply (Sequential_image blocks _ n _ _ Hn Hx)|].
  intros y yb _ _ Hy.
  eapply opt_rel_bind; [apply (broadcast_image rsub _ n _ _ _ _ Hn Hy Hx)|].
  intros d db _ _ [Hdb [Sd Dd]]. cbn [opt_rel].
  unfold sum_axes_123, map_nd. cbn [vlen vdata shape data].
  rewrite Sd. unfold take_image. cbn [shape dN dC dH dW].
  split; [reflexivity|]. split; [exact Hdb|].
  apply rsum_ext; intros c Hc. apply rsum_ext; intros i Hi.
  apply rsum_ext; intros j Hj. f_equal.
  rewrite (Dd 0 c i j); [reflexivity | | exact I].
  rewrite Sd. unfold take_image. cbn [shape].
  repeat split; cbn [dN dC dH dW]; try assumption; lia.
Qed.

(** Two runs of a loop whose body keeps a relation between the states:
    both raise, or both finish in related states. *)
Lemma for_each_orel {I St : Type} (Inv : St -> St -> Prop) (l : list I)
  (body body' : I -> St -> option St) (s t : St) :
  (forall k u v, In k l -> Inv u v -> opt_rel Inv (body k u) (body' k v)) ->
  Inv s t ->
  opt_rel Inv (for_each l body s) (for_each l body' t).
Proof.
  revert s t. induction l as [|k l IH]; intros s t Hb Hs; cbn [for_each].
  - exact Hs.
  - eapply opt_rel_bind; [apply Hb; [left; reflexivity | exact Hs]|].
    intros u v _ _ Huv. apply IH; [|exact Huv].
    intros k' a b Hin. apply Hb. right; exact Hin.
Qed.

Lemma completion_step_image (blocks : list (Block R)) (N n i j : nat)
  (u ub : NDArray R) :
  n < N -> image_of N n u ub ->
  opt_rel (image_of N n)
    (completion_step (Sequential_forward blocks) i j u)
    (completion_step (Sequential_forward blocks) i j ub).
Proof.
  intros Hn Hu. unfold completion_step.
  eapply opt_rel_bind; [apply (Sequential_image blocks N n _ _ Hn Hu)|].
  intros out outb _ _ [Hob [So Do]].
  destruct Hu as [Hub [Su Du]].
  unfold getitem, setitem. rewrite So, Su. unfold take_image. cbn [shape dN dC dH dW].
  destruct ((0 <? dC (shape outb)) && (i <? dH (shape outb)) && (j <? dW (shape outb)))
    eqn:Hc1; cbn [bind vlen vdata]; [|exact I].
  rewrite Hob, Hub, !Nat.eqb_refl, !andb_true_r.
  destruct ((0 <? dC (shape ub)) && (i <? dH (shape ub)) && (j <? dW (shape ub)))
    eqn:Hc2; cbn [opt_rel]; [|exact I].
  split; [exact Hub|]. split; [reflexivity|].
  cbn [shape data]. intros m c a b (Hm & Hc & Ha & Hb) _.
  cbn [dN dC dH dW] in Hm, Hc, Ha, Hb.
  apply andb_prop in Hc1 as [Hc1 H3]. apply andb_prop in Hc1 as [H1 H2].
  apply Nat.ltb_lt in H1. apply Nat.ltb_lt in H2. apply Nat.ltb_lt in H3.
  unfold take_image at 1. cbn [data].
  destruct ((c =? 0) && (a =? i) && (b =? j)).
  - rewrite (Do m 0 i j); [reflexivity | | exact I].
    rewrite So. unfold take_image. cbn [shape].
    repeat split; cbn [dN dC dH dW]; assumption.
  - rewrite (Du m c a b); [reflexivity | | exact I].
    rewrite Su. unfold take_image. cbn [shape].
    repeat split; cbn [dN dC dH dW]; assumption.
Qed.

(** The completion fills in each image of a batch independently of the
    others: on image [n] alone it returns image [n] of what it returns on
    the batch, and it raises on the one exactly when it raises on the
    other. *)
Theorem completion_per_image :
  forall (blocks : list (Block R)) (x : NDArray R) (n : nat),
    n < dN (shape x) ->
    opt_rel (fun r1 r => nd_eq r1 (take_image n r))
      (completion (Sequential_forward blocks) (take_image n x))
      (completion (Sequential_forward blocks) x).
Proof.
  intros blocks x n Hn. unfold completion.
  refine (opt_rel_weaken _ _ _ _ _
            (for_each_orel (image_of (dN (shape x)) n) _ _ _ _ _ _ _)).
  - intros y yb _ _ [_ Hy]. exact Hy.
  - intros i u ub _ Hu. apply for_each_orel; [|exact Hu].
    intros j w wb _ Hw. apply completion_step_image; assumption.
  - split; [reflexivity | apply agree_on_refl].
Qed.

End FurtherProofs.

(** [masked_conv_window] at position (1,1) of two 2x2 images that differ
    only there, for type A. *)
Lemma masked_conv_window_witness :
  opt_rel (agree_on (fun _ r q => r = 1 /\ q = 1))
    (VStack_hybrid_forward vstack_A_ones img_a)
    (VStack_hybrid_forward vstack_A_ones img_b) /\
  opt_rel (agree_on (fun _ r q => r = 1 /\ q = 1))
    (HStack_hybrid_forward hstack_A_ones img_a)
    (HStack_hybrid_forward hstack_A_ones img_b).
Proof.
  destruct (masked_conv_window 1 (5, 5) 1 None true ones_weight
              zero_bias 0 "A" img_a img_b 1 1) as [HV HH].
  split; [apply HV | apply HH]; (split; [reflexivity|]);
    intros n c i j _ Hi; unfold lift, in_window in Hi; cbn in Hi;
    unfold img_a, img_b; cbn [data].
  - assert (i = 0) as -> by lia. reflexivity.
  - assert (i = 1 /\ j = 0) as [-> ->] by lia. reflexivity.
Defined.

(** [masked_forward_result] on the column [1 2 3]. *)
Lemma masked_forward_result_witness :
  exists y,
    VStack_hybrid_forward vstack_A_ones col3 = Some y /\
    shape y = mkShape 1 1 3 1 /\ data y = conv_data vstack_A_ones col3.
Proof.
  eexists. split; [reflexivity|].
  apply (masked_forward_result vstack_A_ones col3). left. reflexivity.
Defined.

(** [gated_layer_keeps_causal_order] on two inputs that differ only at
    position (1,1), for type A and the output up to (1,1). *)
Lemma gated_layer_keeps_causal_order_witness :
  opt_rel (agree_on (cat_pred 2 (lift (fun r _ => r <= 1)) (lift (upto 1 1))))
    (GatedLayer_hybrid_forward
       (GatedLayer_init 2 (5, 5) (1, 1) (1, 1) 1 true ones_gated 0 "A" false) img_ab4)
    (GatedLayer_hybrid_forward
       (GatedLayer_init 2 (5, 5) (1, 1) (1, 1) 1 true ones_gated 0 "A" false) img_ab4_last).
Proof.
  apply (gated_layer_keeps_causal_order 2 (5, 5) 1 true ones_gated 0 "A" 1 1
           img_ab4 img_ab4_last).
  split; [reflexivity|].
  intros n c i j (_ & _ & Hi & Hj) Hp. cbn in Hi, Hj.
  unfold img_ab4, img_ab4_last. cbn [data].
  assert (Hne : (i =? 1) && (j =? 1) = false).
  { unfold cat_pred, lift, before in Hp.
    destruct c as [|[|c]]; cbn in Hp;
      destruct i as [|[|]], j as [|[|]]; cbn; try reflexivity; lia. }
  rewrite Hne. reflexivity.
Defined.


(** [net_is_causal] at (14,0), on a blank image and one that is white
    below row 14. *)
Lemma net_is_causal_witness :
  opt_rel (agree_on (lift (upto 14 0))) (net ones_net img28) (net ones_net img28_lower).
Proof.
  apply (net_is_causal ones_net 14 0 img28 img28_lower).
  split; [reflexivity|].
  intros n c i j _ Hp. unfold lift, before in Hp.
  unfold img28, img28_lower. cbn [data].
  replace (i <? 14) with true by (symmetry; apply Nat.ltb_lt; lia).
  reflexivity.
Defined.

(** [net_receptive_field] at (27,0): a white top row is out of reach. *)
Lemma net_receptive_field_witness :
  opt_rel (agree_on (fun _ r q => r = 27 /\ q = 0))
    (net ones_net img28) (net ones_net img28_top).
Proof.
  apply (net_receptive_field ones_net 27 0 img28 img28_top).
  split; [reflexivity|].
  intros n c i j _ Hp. unfold lift, net_field in Hp.
  unfold img28, img28_top. cbn [data].
  replace (i =? 0) with false by (symmetry; apply Nat.eqb_neq; lia).
  reflexivity.
Defined.

(** [completion_is_fixed_point] on the image that is white below row 14. *)
Lemma completion_is_fixed_point_witness :
  exists r out,
    completion (net ones_net) img28_lower = Some r /\ net ones_net r = Some out /\
    forall n i j, n < 1 -> 14 <= i -> i < 28 -> j < 28 ->
                  data out n 0 i j = data r n 0 i j.
Proof.
  apply (completion_is_fixed_point ones_net 1 img28_lower). reflexivity.
Defined.

(** [completion_is_idempotent] on the same image. *)
Lemma completion_is_idempotent_witness :
  exists r r',
    completion (net ones_net) img28_lower = Some r /\
    completion (net ones_net) r = Some r' /\ nd_eq r' r.
Proof.
  apply (completion_is_idempotent ones_net 1 img28_lower). reflexivity.
Defined.

(** [completion_needs_28x28] on a 2x2 image. *)
Lemma completion_needs_28x28_witness :
  completion (net ones_net) img_a = None.
Proof.
  apply (completion_needs_28x28 (net ones_net) img_a). right. left. cbn. lia.
Defined.

(** [gated_layer_rejects_channels] on a 3-channel input. *)
Lemma gated_layer_rejects_channels_witness :
  GatedLayer_hybrid_forward
    (GatedLayer_init 2 (5, 5) (1, 1) (1, 1) 1 true ones_gated 0 "A" false) hx3 = None.
Proof.
  apply (gated_layer_rejects_channels 2 (5, 5) (1, 1) (1, 1) 1 true ones_gated 0 "A"
           false hx3).
  left. cbn. discriminate.
Defined.

(** [strided_gated_layer_fails] on a 4-channel 2x2 input, strides 2. *)
Lemma strided_gated_layer_fails_witness :
  GatedLayer_hybrid_forward
    (GatedLayer_init 2 (5, 5) (2, 2) (1, 1) 1 true ones_gated 0 "A" false) img_ab4 = None.
Proof.
  apply (strided_gated_layer_fails 2 (5, 5) (2, 2) (1, 1) 1 true ones_gated 0 "A"
           img_ab4).
  left. cbn. lia.
Defined.

(** [sequential_per_image] for [net] on the second image of a batch of two. *)
Lemma sequential_per_image_witness :
  opt_rel (fun y yb => nd_eq y (take_image 1 yb))
    (net ones_net (take_image 1 batch2)) (net ones_net batch2).
Proof.
  apply (sequential_per_image (net_blocks ones_net) batch2 1). cbn. lia.
Defined.

(** [loss_per_image] for [net] on the second image of a batch of two. *)
Lemma loss_per_image_witness :
  opt_rel (fun l1 l => vlen l1 = 1 /\ vlen l = 2 /\ vdata l1 0 = vdata l 1)
    (loss (net ones_net) (take_image 1 batch2)) (loss (net ones_net) batch2).
Proof.
  apply (loss_per_image (net_blocks ones_net) batch2 1). cbn. lia.
Defined.

(** [completion_per_image] for [net] on the second of two MNIST-sized
    images. *)
Lemma completion_per_image_witness :
  opt_rel (fun r1 r => nd_eq r1 (take_image 1 r))
    (completion (net ones_net) (take_image 1 batch28))
    (completion (net ones_net) batch28).
Proof.
  apply (completion_per_image (net_blocks ones_net) batch28 1). cbn. lia.
Defined.

(** [type_B_is_shifted_type_A] on a 28x28 image, 5x5 kernels. *)
Lemma type_B_is_shifted_type_A_witness :
  exists va vb ha hb,
    VStack_hybrid_forward vstack_A_ones img28_lower = Some va /\
    VStack_hybrid_forward vstack_B_ones img28_lower = Some vb /\
    HStack_hybrid_forward hstack_A_ones img28_lower = Some ha /\
    HStack_hybrid_forward hstack_B_ones img28_lower = Some hb /\
    (forall n o i j, S i < 28 -> data vb n o i j = data va n o (S i) j) /\
    (forall n o i j, S j < 28 -> data hb n o i j = data ha n o i (S j)).
Proof.
  apply (type_B_is_shifted_type_A 1 (5, 5) 1 None true ones_weight zero_bias 0 "B"
           img28_lower); try reflexivity; try (cbn; lia).
  unfold conv_ok; cbn. repeat split; auto.
Defined.
